(** * Energy collector: pulse aggregation and buffered persistence

    A shallow embedding of [Collectors/energy/collect_energy.py].

    The program has two parts.  [edge_callback] runs in the GPIO callback
    context: it turns falling edges into [(epoch, delta)] pairs and appends
    them to the shared list [pulse_list].  [aggregator_loop] is the control
    loop: it pops pulses from the front of [pulse_list], filters glitches,
    aggregates the remaining pulses into windows, buffers one row per closed
    window in [out_buffer] and writes the buffer to SQLite under a
    time-or-size policy.

    The module-level globals and the locals of [aggregator_loop] (shared with
    its closures [flush_buffer] and [emit_output] through [nonlocal]) are the
    fields of one record, [World], threaded explicitly through every
    operation.  The effects the program has on the outside (a call of
    [emit_output], a call of [executemany] followed by [commit]) are appended
    to the field [trace].  Readings of [time.time()] are inputs. *)

From Stdlib Require Import ZArith QArith List Bool Lia Sorted.
Import ListNotations.

Open Scope Z_scope.

(** ** Configuration *)

(** The module-level constants of the source. *)
Record Config := mkConfig {
  DbaseBlkTime : Z;         (* seconds *)
  MAX_RECORDS : Z;          (* safety cap only *)
  MIN_TIME : Z;             (* seconds *)
  GLITCH_THRESHOLD_US : Z
}.

(** The values the source file assigns. *)
Definition source_config : Config :=
  {| DbaseBlkTime := 60;
     MAX_RECORDS := 5000;
     MIN_TIME := 5;
     GLITCH_THRESHOLD_US := 50000 |}.

(** The configuration of the flush-cap example: a flush interval of 60 s
    and a cap of 5 rows, the other two constants as in the source. *)
Definition cap5_config : Config :=
  {| DbaseBlkTime := 60;
     MAX_RECORDS := 5;
     MIN_TIME := 5;
     GLITCH_THRESHOLD_US := 50000 |}.

(** ** Data *)

(** An element of [pulse_list]: the tuple [(epoch, delta)]. *)
Definition Pulse : Type := (Z * Z)%type.

(** An element of [out_buffer]: the tuple [(epoch_s, dt_ms, count)]. *)
Definition Row : Type := (Z * Z * Z)%type.

(** What the control loop does to the outside world. *)
Inductive Event : Type :=
| Output (epoch_s dt_ms count : Z)
    (* emit_output was called with these arguments *)
| DbWrite (rows : list Row) (inputs outputs : Z).
    (* executemany(rows); commit(); the two counters are the ones printed *)

Record World := mkWorld {
  (* module globals *)
  previous_tick : option Z;
  pulse_list : list Pulse;
  running : bool;
  (* locals of aggregator_loop *)
  out_buffer : list Row;
  last_flush_time : Q;
  old_epoch : option Z;
  AggStart : Z;
  dt_agg : Z;
  pulse_count : Z;
  block_input_pulses : Z;
  block_output_records : Z;
  (* effects so far, oldest first *)
  trace : list Event
}.

(** Field updates. *)
Definition set_previous_tick (v : option Z) (w : World) : World :=
  mkWorld v (pulse_list w) (running w) (out_buffer w) (last_flush_time w)
          (old_epoch w) (AggStart w) (dt_agg w) (pulse_count w)
          (block_input_pulses w) (block_output_records w) (trace w).

Definition set_pulse_list (v : list Pulse) (w : World) : World :=
  mkWorld (previous_tick w) v (running w) (out_buffer w) (last_flush_time w)
          (old_epoch w) (AggStart w) (dt_agg w) (pulse_count w)
          (block_input_pulses w) (block_output_records w) (trace w).

Definition set_running (v : bool) (w : World) : World :=
  mkWorld (previous_tick w) (pulse_list w) v (out_buffer w) (last_flush_time w)
          (old_epoch w) (AggStart w) (dt_agg w) (pulse_count w)
          (block_input_pulses w) (block_output_records w) (trace w).

Definition set_out_buffer (v : list Row) (w : World) : World :=
  mkWorld (previous_tick w) (pulse_list w) (running w) v (last_flush_time w)
          (old_epoch w) (AggStart w) (dt_agg w) (pulse_count w)
          (block_input_pulses w) (block_output_records w) (trace w).

Definition set_last_flush_time (v : Q) (w : World) : World :=
  mkWorld (previous_tick w) (pulse_list w) (running w) (out_buffer w) v
          (old_epoch w) (AggStart w) (dt_agg w) (pulse_count w)
          (block_input_pulses w) (block_output_records w) (trace w).

Definition set_old_epoch (v : option Z) (w : World) : World :=
  mkWorld (previous_tick w) (pulse_list w) (running w) (out_buffer w)
          (last_flush_time w) v (AggStart w) (dt_agg w) (pulse_count w)
          (block_input_pulses w) (block_output_records w) (trace w).

Definition set_AggStart (v : Z) (w : World) : World :=
  mkWorld (previous_tick w) (pulse_list w) (running w) (out_buffer w)
          (last_flush_time w) (old_epoch w) v (dt_agg w) (pulse_count w)
          (block_input_pulses w) (block_output_records w) (trace w).

Definition set_dt_agg (v : Z) (w : World) : World :=
  mkWorld (previous_tick w) (pulse_list w) (running w) (out_buffer w)
          (last_flush_time w) (old_epoch w) (AggStart w) v (pulse_count w)
          (block_input_pulses w) (block_output_records w) (trace w).

Definition set_pulse_count (v : Z) (w : World) : World :=
  mkWorld (previous_tick w) (pulse_list w) (running w) (out_buffer w)
          (last_flush_time w) (old_epoch w) (AggStart w) (dt_agg w) v
          (block_input_pulses w) (block_output_records w) (trace w).

Definition set_block_input_pulses (v : Z) (w : World) : World :=
  mkWorld (previous_tick w) (pulse_list w) (running w) (out_buffer w)
          (last_flush_time w) (old_epoch w) (AggStart w) (dt_agg w)
          (pulse_count w) v (block_output_records w) (trace w).

Definition set_block_output_records (v : Z) (w : World) : World :=
  mkWorld (previous_tick w) (pulse_list w) (running w) (out_buffer w)
          (last_flush_time w) (old_epoch w) (AggStart w) (dt_agg w)
          (pulse_count w) (block_input_pulses w) v (trace w).

Definition log (e : Event) (w : World) : World :=
  mkWorld (previous_tick w) (pulse_list w) (running w) (out_buffer w)
          (last_flush_time w) (old_epoch w) (AggStart w) (dt_agg w)
          (pulse_count w) (block_input_pulses w) (block_output_records w)
          (trace w ++ [e]).

(** ** Arithmetic of the source *)

(** [round(n / d)] for Python integers [n] and [d > 0]: the true quotient
    rounded to the nearest integer, a tie going to the even neighbour.
    (The source divides in double precision; the quotient of an integer
    below 2^53 by 1000 is never rounded onto a tie that the exact quotient
    does not have, so on that range the integer computation agrees.) *)
Definition py_round_div (n d : Z) : Z :=
  let q := n / d in
  let r := n mod d in
  match 2 * r ?= d with
  | Lt => q
  | Gt => q + 1
  | Eq => if Z.even q then q else q + 1
  end.

(** [round(dt_agg / 1000)] *)
Definition to_millis (dt : Z) : Z := py_round_div dt 1000.

(** [(tick - previous_tick) & 0xFFFFFFFF] *)
Definition tick_delta (tick prev : Z) : Z := Z.land (tick - prev) 0xFFFFFFFF.

(** ** GPIO callback *)

(** [edge_callback(gpio, level, tick)]; [epoch] is the value of
    [int(time.time())] read inside the call.  [gpio] is not used. *)
Definition edge_callback (level tick epoch : Z) (w : World) : World :=
  if negb (level =? 0) then w
  else match previous_tick w with
       | None => set_previous_tick (Some tick) w
       | Some prev =>
           let delta := tick_delta tick prev in
           let w := set_previous_tick (Some tick) w in
           set_pulse_list (pulse_list w ++ [(epoch, delta)]) w
       end.

(** [shutdown_handler(signum, frame)] *)
Definition shutdown_handler (w : World) : World := set_running false w.

(** ** Aggregation and database writer *)

Section Aggregator.

Variable cfg : Config.

(** The closure [flush_buffer]; [now] is the reading of [time.time()] taken
    after the commit. *)
Definition flush_buffer (now : Q) (w : World) : World :=
  match out_buffer w with
  | [] => w
  | _ :: _ =>
      let w := log (DbWrite (out_buffer w) (block_input_pulses w)
                            (block_output_records w)) w in
      let w := set_out_buffer [] w in
      let w := set_last_flush_time now w in
      let w := set_block_input_pulses 0 w in
      set_block_output_records 0 w
  end.

(** The closure [emit_output]. *)
Definition emit_output (epoch_s dt_ms count : Z) (w : World) : World :=
  let w := set_out_buffer (out_buffer w ++ [(epoch_s, dt_ms, count)]) w in
  let w := set_block_output_records (block_output_records w + 1) w in
  log (Output epoch_s dt_ms count) w.

(** [time.time() - last_flush_time >= DbaseBlkTime] *)
Definition time_due (now : Q) (w : World) : bool :=
  Qle_bool (inject_Z (DbaseBlkTime cfg)) (now - last_flush_time w).

(** [len(out_buffer) >= MAX_RECORDS] *)
Definition size_due (w : World) : bool :=
  MAX_RECORDS cfg <=? Z.of_nat (length (out_buffer w)).

(** The two clock readings one iteration can make: the one compared with
    [last_flush_time] and the later one stored by [flush_buffer]. *)
Record Clock := mkClock { t_check : Q; t_flush : Q }.

(** The first pulse that passes the glitch filter. *)
Definition seed_first (epoch delta_us : Z) (w : World) : World :=
  let w := set_old_epoch (Some epoch) w in
  let w := set_AggStart epoch w in
  let w := set_dt_agg delta_us w in
  set_pulse_count 1 w.

(** The two branches of the window test. *)
Definition window_step (epoch delta_us : Z) (w : World) : World :=
  if epoch <=? AggStart w + MIN_TIME cfg then
    let w := set_dt_agg (dt_agg w + delta_us) w in
    set_pulse_count (pulse_count w + 1) w
  else
    let w := emit_output (AggStart w) (to_millis (dt_agg w)) (pulse_count w) w in
    let w := set_AggStart epoch w in
    let w := set_dt_agg delta_us w in
    set_pulse_count 1 w.

(** The test that ends an iteration which reached the window test. *)
Definition flush_if_due (c : Clock) (w : World) : World :=
  if time_due (t_check c) w || size_due w
  then flush_buffer (t_flush c) w else w.

(** One pass through the body of [while running:]. *)
Definition loop_body (c : Clock) (w : World) : World :=
  match pulse_list w with
  | [] =>
      (* the 0.2 s sleep changes nothing but the clock *)
      if time_due (t_check c) w then flush_buffer (t_flush c) w else w
  | (epoch, delta_us) :: rest =>
      let w := set_pulse_list rest w in
      let w := set_block_input_pulses (block_input_pulses w + 1) w in
      if delta_us <? GLITCH_THRESHOLD_US cfg then w
      else match old_epoch w with
           | None => seed_first epoch delta_us w
           | Some _ =>
               let w := window_step epoch delta_us w in
               let w := set_old_epoch (Some epoch) w in
               flush_if_due c w
           end
  end.

(** What follows the loop: the last window, then the final flush. *)
Definition shutdown_drain (w : World) : World :=
  if 0 <? pulse_count w
  then emit_output (AggStart w) (to_millis (dt_agg w)) (pulse_count w) w
  else w.

Definition after_loop (now : Q) (w : World) : World :=
  flush_buffer now (shutdown_drain w).

(** What the other execution contexts do between two tests of [running]. *)
Inductive EnvEvent : Type :=
| Edge (level tick epoch : Z)   (* the GPIO callback fires *)
| Stop.                         (* SIGINT or SIGTERM is delivered *)

Definition env_step (e : EnvEvent) (w : World) : World :=
  match e with
  | Edge level tick epoch => edge_callback level tick epoch w
  | Stop => shutdown_handler w
  end.

Definition env_steps (es : list EnvEvent) (w : World) : World :=
  fold_left (fun w e => env_step e w) es w.

(** One turn of the schedule: what arrives before [running] is tested, and
    the clock readings of the iteration (or of the final flush). *)
Record Slot := mkSlot { arrivals : list EnvEvent; clock : Clock }.

(** The locals as [aggregator_loop] initialises them; [now] is the first
    reading of the clock. *)
Definition initial_world (now : Q) : World :=
  {| previous_tick := None; pulse_list := []; running := true;
     out_buffer := []; last_flush_time := now;
     old_epoch := None; AggStart := 0; dt_agg := 0; pulse_count := 0;
     block_input_pulses := 0; block_output_records := 0;
     trace := [] |}.

(** [aggregator_loop] from the first test of [running] on.  The loop leaves
    only when [running] is found false; [None] means the schedule ended with
    the loop still turning. *)
Fixpoint aggregator_loop (sched : list Slot) (w : World) : option World :=
  match sched with
  | [] => None
  | s :: rest =>
      let w := env_steps (arrivals s) w in
      if running w
      then aggregator_loop rest (loop_body (clock s) w)
      else Some (after_loop (t_flush (clock s)) w)
  end.

(** The rows handed to [emit_output], in order. *)
Fixpoint emitted (tr : list Event) : list Row :=
  match tr with
  | [] => []
  | Output e d c :: tr => (e, d, c) :: emitted tr
  | DbWrite _ _ _ :: tr => emitted tr
  end.

(** The batches written to the database, in order. *)
Fixpoint written (tr : list Event) : list (list Row) :=
  match tr with
  | [] => []
  | Output _ _ _ :: tr => written tr
  | DbWrite rows _ _ :: tr => rows :: written tr
  end.

(** States of the control loop at the test of [running]. *)
Inductive reachable : World -> Prop :=
| reach_init : forall now, reachable (initial_world now)
| reach_env : forall e w, reachable w -> reachable (env_step e w)
| reach_body : forall c w,
    reachable w -> running w = true -> reachable (loop_body c w).

End Aggregator.

(** ** The aggregation engine seen on its own

    The part of [World] the windowing rule reads and writes, and the rows it
    has emitted.  [engine_step] is what one popped pulse does to that part;
    [loop_body_engine] below shows that [loop_body] acts on it in exactly
    this way, whatever the clock and the flush policy do. *)

Record Engine := mkEngine {
  e_old_epoch : option Z;
  e_AggStart : Z;
  e_dt_agg : Z;
  e_pulse_count : Z;
  e_emitted : list Row
}.

Definition engine_of (w : World) : Engine :=
  mkEngine (old_epoch w) (AggStart w) (dt_agg w) (pulse_count w)
           (emitted (trace w)).

Definition engine_step (cfg : Config) (v : Engine) (p : Pulse) : Engine :=
  let '(epoch, delta_us) := p in
  if delta_us <? GLITCH_THRESHOLD_US cfg then v
  else match e_old_epoch v with
       | None => mkEngine (Some epoch) epoch delta_us 1 (e_emitted v)
       | Some _ =>
           if epoch <=? e_AggStart v + MIN_TIME cfg
           then mkEngine (Some epoch) (e_AggStart v) (e_dt_agg v + delta_us)
                         (e_pulse_count v + 1) (e_emitted v)
           else mkEngine (Some epoch) epoch delta_us 1
                         (e_emitted v ++
                            [(e_AggStart v, to_millis (e_dt_agg v),
                              e_pulse_count v)])
       end.

(** Successive passes through the loop body, one clock per pass. *)
Definition iterate (cfg : Config) (cs : list Clock) (w : World) : World :=
  fold_left (fun w c => loop_body cfg c w) cs w.

(** Whether the database was written between [w] and a later [w']. *)
Definition wrote (w w' : World) : bool :=
  (length (written (trace w)) <? length (written (trace w')))%nat.

(** The state at which an iteration evaluates the flush policy, if it
    does: an iteration that finds the channel empty evaluates it on the
    state as it is, an iteration that reaches the window test evaluates it
    after the window update; the two [continue] statements skip it. *)
Definition policy_point (cfg : Config) (w : World) : option World :=
  match pulse_list w with
  | [] => Some w
  | (epoch, delta_us) :: rest =>
      let w := set_pulse_list rest w in
      let w := set_block_input_pulses (block_input_pulses w + 1) w in
      if delta_us <? GLITCH_THRESHOLD_US cfg then None
      else match old_epoch w with
           | None => None
           | Some _ =>
               Some (set_old_epoch (Some epoch) (window_step cfg epoch delta_us w))
           end
  end.

(** A row whose count and elapsed milliseconds are both positive. *)
Definition row_positive (r : Row) : Prop :=
  let '(_, dt_ms, count) := r in 0 < count /\ 0 < dt_ms.

(** The window counts at least one pulse exactly when it has been seeded,
    every pulse in it brought at least the glitch threshold, and every row
    emitted so far is positive. *)
Definition engine_ok (cfg : Config) (v : Engine) : Prop :=
  (e_old_epoch v = None -> e_pulse_count v = 0) /\
  (e_old_epoch v <> None -> 0 < e_pulse_count v) /\
  GLITCH_THRESHOLD_US cfg * e_pulse_count v <= e_dt_agg v /\
  Forall row_positive (e_emitted v).

(** Two readings of the prose that the code is compared with below. *)

(** With the stop already requested and nothing arriving after it, the
    control loop leaves with the channel empty. *)
Definition stop_drains_channel (cfg : Config) : Prop :=
  forall (w : World) (c : Clock) (rest : list Slot) (w' : World),
    running w = false ->
    aggregator_loop cfg (mkSlot [] c :: rest) w = Some w' ->
    pulse_list w' = [].

(** Every iteration that starts with rows buffered and the flush interval
    elapsed writes them. *)
Definition flushes_when_time_due (cfg : Config) : Prop :=
  forall (c : Clock) (w : World),
    reachable cfg w -> running w = true ->
    out_buffer w <> [] ->
    time_due cfg (t_check c) w = true ->
    wrote w (loop_body cfg c w) = true.

(** ** The table the rows are written to

    The loop creates [energy (epoch INTEGER PRIMARY KEY, dt_ms INTEGER,
    pulse_count INTEGER)] and writes with [INSERT OR REPLACE].  The store
    itself is SQLite, outside this repository: the table below is a model
    of it, the list of its rows with unbounded integers.  The trace holds
    the batches written, so the table at any moment is the replay of the
    trace on the table found at start. *)

Definition Table : Type := list Row.

Definition row_epoch (r : Row) : Z := fst (fst r).

Definition row_count (r : Row) : Z := snd r.

(** Modelled from the spec: the durable store, which is not code of this
    repository.  [INSERT OR REPLACE INTO energy VALUES (?, ?, ?)] for one
    row: a stored row with the same [epoch] is replaced, the others stay. *)
Definition insert_or_replace (t : Table) (r : Row) : Table :=
  filter (fun r' => negb (row_epoch r' =? row_epoch r)) t ++ [r].

(** [cursor.executemany(..., rows)] *)
Definition executemany (rows : list Row) (t : Table) : Table :=
  fold_left insert_or_replace rows t.

(** The row stored under a key, if any. *)
Definition select (e : Z) (t : Table) : option Row :=
  find (fun r => row_epoch r =? e) t.

Fixpoint table_after (tr : list Event) (t : Table) : Table :=
  match tr with
  | [] => t
  | Output _ _ _ :: tr => table_after tr t
  | DbWrite rows _ _ :: tr => table_after tr (executemany rows t)
  end.

(** ** Measures used in the statements below *)

Definition is_stop (e : EnvEvent) : bool :=
  match e with Stop => true | Edge _ _ _ => false end.

Definition is_falling (e : EnvEvent) : bool :=
  match e with Edge level _ _ => level =? 0 | Stop => false end.

(** One turn of the schedule in which [running] is found true. *)
Definition run_slot (cfg : Config) (w : World) (s : Slot) : World :=
  loop_body cfg (clock s) (env_steps (arrivals s) w).

Definition run_slots (cfg : Config) (ss : list Slot) (w : World) : World :=
  fold_left (run_slot cfg) ss w.

Definition sum_deltas (q : list Pulse) : Z :=
  fold_right (fun p acc => snd p + acc) 0 q.

Definition sum_counts (rows : list Row) : Z :=
  fold_right (fun r acc => row_count r + acc) 0 rows.

(** A pulse the glitch filter lets through. *)
Definition qualifies (cfg : Config) (p : Pulse) : bool :=
  negb (snd p <? GLITCH_THRESHOLD_US cfg).

(** The sum of the [inputs=] figures reported with the writes. *)
Fixpoint inputs_reported (tr : list Event) : Z :=
  match tr with
  | [] => 0
  | Output _ _ _ :: tr => inputs_reported tr
  | DbWrite _ inputs _ :: tr => inputs + inputs_reported tr
  end.

(** A write as the loop makes them: at least one row, at most the cap, and
    the [outputs=] figure equal to the number of rows. *)
Definition write_ok (cfg : Config) (e : Event) : Prop :=
  match e with
  | Output _ _ _ => True
  | DbWrite rows _ outputs =>
      rows <> [] /\
      Z.of_nat (length rows) <= MAX_RECORDS cfg /\
      outputs = Z.of_nat (length rows)
  end.

(** Each row starts more than [gap] after the row before it. *)
Definition spaced (gap : Z) (a b : Row) : Prop :=
  row_epoch a + gap < row_epoch b.

(** The emitted rows are spaced by more than the minimum window, the open
    window starts more than that after each of them, and before the first
    seed nothing is counted or emitted. *)
Definition engine_spaced (cfg : Config) (v : Engine) : Prop :=
  StronglySorted (spaced (MIN_TIME cfg)) (e_emitted v) /\
  Forall (fun r => row_epoch r + MIN_TIME cfg < e_AggStart v) (e_emitted v) /\
  (e_old_epoch v = None -> e_pulse_count v = 0 /\ e_emitted v = []).

(** ** Basic facts *)

Lemma emitted_app (a b : list Event) :
  emitted (a ++ b) = emitted a ++ emitted b.
Proof.
  induction a as [|[e d c|rows i o] a IH]; simpl; [reflexivity| |assumption].
  now rewrite IH.
Qed.

Lemma written_app (a b : list Event) :
  written (a ++ b) = written a ++ written b.
Proof.
  induction a as [|[e d c|rows i o] a IH]; simpl; [reflexivity|assumption|].
  now rewrite IH.
Qed.

Lemma py_round_div_1000_pos (n : Z) : 500 < n -> 0 < to_millis n.
Proof.
  intros Hn. unfold to_millis, py_round_div.
  assert (Hdm : n = 1000 * (n / 1000) + n mod 1000) by (apply Z.div_mod; lia).
  assert (Hr : 0 <= n mod 1000 < 1000) by (apply Z.mod_pos_bound; lia).
  assert (Hq : 0 <= n / 1000) by (apply Z.div_pos; lia).
  destruct (Z.compare_spec (2 * (n mod 1000)) 1000) as [He|Hl|Hg].
  - destruct (Z.even (n / 1000)) eqn:Hev; [|lia].
    assert (n / 1000 <> 0) by lia. lia.
  - lia.
  - lia.
Qed.

(** [round(n / 1000)] is the integer nearest to the thousandth of [n], and
    on a tie the even one of the two. *)
Lemma to_millis_nearest_even (n : Z) :
  -500 <= 1000 * to_millis n - n <= 500 /\
  (Z.abs (1000 * to_millis n - n) = 500 -> Z.even (to_millis n) = true).
Proof.
  unfold to_millis, py_round_div.
  pose proof (Z.div_mod n 1000 ltac:(lia)) as Hdm.
  pose proof (Z.mod_pos_bound n 1000 ltac:(lia)) as Hr.
  destruct (Z.compare_spec (2 * (n mod 1000)) 1000) as [He|Hl|Hg].
  - destruct (Z.even (n / 1000)) eqn:Hev.
    + split; [lia|]. intros _. exact Hev.
    + split; [lia|]. intros _.
      change (n / 1000 + 1) with (Z.succ (n / 1000)).
      rewrite Z.even_succ, <- Z.negb_even, Hev. reflexivity.
  - split; lia.
  - split; lia.
Qed.

Lemma tick_delta_mod (tick prev : Z) :
  tick_delta tick prev = (tick - prev) mod 2 ^ 32.
Proof.
  unfold tick_delta. change 0xFFFFFFFF with (Z.ones 32).
  apply Z.land_ones. lia.
Qed.

Lemma tick_delta_range (tick prev : Z) : 0 <= tick_delta tick prev < 2 ^ 32.
Proof. rewrite tick_delta_mod. apply Z.mod_pos_bound. lia. Qed.

(** [flush_buffer] touches neither the window nor the queue, and emits
    nothing. *)
Lemma flush_buffer_engine (now : Q) (w : World) :
  engine_of (flush_buffer now w) = engine_of w.
Proof.
  unfold flush_buffer, engine_of. destruct (out_buffer w); [reflexivity|].
  simpl. rewrite emitted_app. simpl. now rewrite app_nil_r.
Qed.

Lemma flush_buffer_globals (now : Q) (w : World) :
  pulse_list (flush_buffer now w) = pulse_list w /\
  previous_tick (flush_buffer now w) = previous_tick w /\
  running (flush_buffer now w) = running w.
Proof. unfold flush_buffer. destruct (out_buffer w); simpl; auto. Qed.

Lemma flush_if_due_engine (cfg : Config) (c : Clock) (w : World) :
  engine_of (flush_if_due cfg c w) = engine_of w.
Proof.
  unfold flush_if_due. destruct (_ || _); [apply flush_buffer_engine|reflexivity].
Qed.

Lemma flush_if_due_globals (cfg : Config) (c : Clock) (w : World) :
  pulse_list (flush_if_due cfg c w) = pulse_list w /\
  previous_tick (flush_if_due cfg c w) = previous_tick w /\
  running (flush_if_due cfg c w) = running w.
Proof.
  unfold flush_if_due. destruct (_ || _); [apply flush_buffer_globals|auto].
Qed.

(** One iteration that finds a pulse acts on the engine as [engine_step]
    and pops exactly that pulse. *)
Lemma loop_body_engine (cfg : Config) (c : Clock) (w : World)
      (p : Pulse) (rest : list Pulse) :
  pulse_list w = p :: rest ->
  engine_of (loop_body cfg c w) = engine_step cfg (engine_of w) p /\
  pulse_list (loop_body cfg c w) = rest.
Proof.
  intros Hq. unfold loop_body. rewrite Hq. destruct p as [epoch delta_us].
  unfold engine_step. simpl.
  destruct (delta_us <? GLITCH_THRESHOLD_US cfg); [split; reflexivity|].
  destruct (old_epoch w) as [o|] eqn:Ho; [|split; reflexivity].
  rewrite flush_if_due_engine.
  destruct (flush_if_due_globals cfg c
              (set_old_epoch (Some epoch)
                 (window_step cfg epoch delta_us
                    (set_block_input_pulses (block_input_pulses w + 1)
                       (set_pulse_list rest w))))) as [Hp _].
  rewrite Hp. clear Hp.
  unfold window_step. simpl.
  destruct (epoch <=? AggStart w + MIN_TIME cfg); simpl.
  - split; reflexivity.
  - split; [|reflexivity]. unfold engine_of. simpl.
    rewrite emitted_app. simpl. reflexivity.
Qed.

(** An iteration that finds the channel empty leaves the engine alone. *)
Lemma loop_body_idle_engine (cfg : Config) (c : Clock) (w : World) :
  pulse_list w = [] ->
  engine_of (loop_body cfg c w) = engine_of w /\
  pulse_list (loop_body cfg c w) = [].
Proof.
  intros Hq. unfold loop_body. rewrite Hq.
  destruct (time_due cfg (t_check c) w); [|now split].
  split; [apply flush_buffer_engine|].
  destruct (flush_buffer_globals (t_flush c) w) as [Hp _]. now rewrite Hp.
Qed.

(** As many iterations as there are pulses in a prefix of the queue
    consume that prefix in order and leave the rest queued. *)
Lemma iterate_engine (cfg : Config) (cs : list Clock) :
  forall (w : World) (front back : list Pulse),
    pulse_list w = front ++ back ->
    length cs = length front ->
    engine_of (iterate cfg cs w) =
      fold_left (engine_step cfg) front (engine_of w) /\
    pulse_list (iterate cfg cs w) = back.
Proof.
  induction cs as [|c cs IH]; intros w front back Hq Hlen.
  - destruct front; [|discriminate]. simpl in *. now split.
  - destruct front as [|p front]; [discriminate|].
    simpl in Hq, Hlen.
    destruct (loop_body_engine cfg c w p (front ++ back) Hq) as [He Hp].
    destruct (IH (loop_body cfg c w) front back Hp) as [He' Hp']; [lia|].
    unfold iterate in *. simpl. rewrite He', Hp', He. now split.
Qed.

Lemma iterate_app (cfg : Config) (cs1 cs2 : list Clock) (w : World) :
  iterate cfg (cs1 ++ cs2) w = iterate cfg cs2 (iterate cfg cs1 w).
Proof. unfold iterate. apply fold_left_app. Qed.

(** ** Invariants of the control loop *)

(** The callback and the signal handler touch the globals only. *)
Lemma env_step_locals (e : EnvEvent) (w : World) :
  engine_of (env_step e w) = engine_of w /\
  out_buffer (env_step e w) = out_buffer w /\
  last_flush_time (env_step e w) = last_flush_time w /\
  trace (env_step e w) = trace w.
Proof.
  destruct e as [level tick epoch|]; simpl; [|repeat split].
  unfold edge_callback. destruct (negb (level =? 0)); [repeat split|].
  destruct (previous_tick w); repeat split.
Qed.

Lemma env_steps_locals (es : list EnvEvent) :
  forall w,
    engine_of (env_steps es w) = engine_of w /\
    out_buffer (env_steps es w) = out_buffer w /\
    last_flush_time (env_steps es w) = last_flush_time w /\
    trace (env_steps es w) = trace w.
Proof.
  induction es as [|e es IH]; intros w; simpl; [repeat split|].
  destruct (IH (env_step e w)) as (H1 & H2 & H3 & H4).
  destruct (env_step_locals e w) as (G1 & G2 & G3 & G4).
  unfold env_steps in *. simpl.
  rewrite H1, H2, H3, H4, G1, G2, G3, G4. repeat split.
Qed.

Lemma engine_step_ok (cfg : Config) (v : Engine) (p : Pulse) :
  500 < GLITCH_THRESHOLD_US cfg ->
  engine_ok cfg v -> engine_ok cfg (engine_step cfg v p).
Proof.
  intros HT (Hnone & Hsome & Hdt & Hall). destruct p as [epoch delta_us].
  unfold engine_step.
  destruct (Z.ltb_spec delta_us (GLITCH_THRESHOLD_US cfg)) as [Hg|Hg].
  { repeat split; assumption. }
  destruct (e_old_epoch v) as [o|] eqn:Ho.
  - assert (Hpc : 0 < e_pulse_count v) by (apply Hsome; discriminate).
    destruct (epoch <=? e_AggStart v + MIN_TIME cfg).
    + unfold engine_ok; simpl. repeat split; try discriminate; try lia.
      assumption.
    + unfold engine_ok; simpl. repeat split; try discriminate; try lia.
      apply Forall_app. split; [assumption|].
      constructor; [|constructor]. simpl. split; [assumption|].
      apply py_round_div_1000_pos. nia.
  - unfold engine_ok; simpl. repeat split; try discriminate; try lia.
    assumption.
Qed.

Lemma loop_body_engine_cases (cfg : Config) (c : Clock) (w : World) :
  engine_of (loop_body cfg c w) = engine_of w \/
  exists p, engine_of (loop_body cfg c w) = engine_step cfg (engine_of w) p.
Proof.
  destruct (pulse_list w) as [|p rest] eqn:Hq.
  - left. now apply loop_body_idle_engine.
  - right. exists p. now apply (loop_body_engine cfg c w p rest).
Qed.

Lemma reachable_engine_ok (cfg : Config) (w : World) :
  500 < GLITCH_THRESHOLD_US cfg ->
  reachable cfg w -> engine_ok cfg (engine_of w).
Proof.
  intros HT Hr. induction Hr as [now|e w Hr IH|c w Hr IH Hrun].
  - unfold engine_ok; simpl. repeat split; try lia.
    + intros H; now elim H.
    + constructor.
  - destruct (env_step_locals e w) as [He _]. now rewrite He.
  - destruct (loop_body_engine_cases cfg c w) as [He|[p He]]; rewrite He.
    + assumption.
    + now apply engine_step_ok.
Qed.

(** The buffer after [flush_buffer] is empty. *)
Lemma flush_buffer_empties (now : Q) (w : World) :
  out_buffer (flush_buffer now w) = [].
Proof.
  unfold flush_buffer. destruct (out_buffer w) eqn:Hb; [assumption|reflexivity].
Qed.

Lemma flush_if_due_below_cap (cfg : Config) (c : Clock) (w : World) :
  1 <= MAX_RECORDS cfg ->
  Z.of_nat (length (out_buffer (flush_if_due cfg c w))) < MAX_RECORDS cfg.
Proof.
  intros Hcap. unfold flush_if_due.
  destruct (time_due cfg (t_check c) w); simpl.
  - rewrite flush_buffer_empties. simpl. lia.
  - unfold size_due.
    destruct (Z.leb_spec (MAX_RECORDS cfg) (Z.of_nat (length (out_buffer w)))).
    + rewrite flush_buffer_empties. simpl. lia.
    + assumption.
Qed.

Lemma flush_buffer_shrinks (now : Q) (w : World) :
  (length (out_buffer (flush_buffer now w)) <= length (out_buffer w))%nat.
Proof. rewrite flush_buffer_empties. simpl. lia. Qed.

(** At every test of [running] the buffer is strictly below the cap. *)
Lemma reachable_below_cap (cfg : Config) (w : World) :
  1 <= MAX_RECORDS cfg ->
  reachable cfg w ->
  Z.of_nat (length (out_buffer w)) < MAX_RECORDS cfg.
Proof.
  intros Hcap Hr. induction Hr as [now|e w Hr IH|c w Hr IH Hrun].
  - simpl. lia.
  - destruct (env_step_locals e w) as (_ & Hb & _). now rewrite Hb.
  - unfold loop_body. destruct (pulse_list w) as [|[epoch delta_us] rest].
    + destruct (time_due cfg (t_check c) w); [|assumption].
      rewrite flush_buffer_empties. simpl. lia.
    + simpl. destruct (delta_us <? GLITCH_THRESHOLD_US cfg); [assumption|].
      destruct (old_epoch w); [|assumption].
      now apply flush_if_due_below_cap.
Qed.

Lemma flush_buffer_written (now : Q) (w : World) :
  written (trace (flush_buffer now w)) =
    written (trace w) ++
      match out_buffer w with [] => [] | _ :: _ => [out_buffer w] end.
Proof.
  unfold flush_buffer. destruct (out_buffer w) as [|r b].
  - now rewrite app_nil_r.
  - simpl. now rewrite written_app.
Qed.

Lemma shutdown_drain_emitted (w : World) :
  emitted (trace (shutdown_drain w)) =
    emitted (trace w) ++
      (if 0 <? pulse_count w
       then [(AggStart w, to_millis (dt_agg w), pulse_count w)] else []).
Proof.
  unfold shutdown_drain. destruct (0 <? pulse_count w).
  - simpl. now rewrite emitted_app.
  - now rewrite app_nil_r.
Qed.

Lemma after_loop_emitted (now : Q) (w : World) :
  emitted (trace (after_loop now w)) =
    emitted (trace w) ++
      (if 0 <? pulse_count w
       then [(AggStart w, to_millis (dt_agg w), pulse_count w)] else []).
Proof.
  unfold after_loop.
  pose proof (flush_buffer_engine now (shutdown_drain w)) as He.
  unfold engine_of in He. injection He as _ _ _ _ He. rewrite He.
  apply shutdown_drain_emitted.
Qed.

(** ** The windowing rule *)

(** C1. An observation that passes the glitch filter while a window is open
    either is folded into the window (when its timestamp is at most
    [AggStart + MIN_TIME]: the accumulated interval grows by its interval,
    the count by one, nothing is emitted) or closes it (otherwise: exactly
    one row [(AggStart, round(dt_agg / 1000), pulse_count)] is emitted and
    the window is re-seeded from the observation).  The milliseconds of the
    row are the integer nearest to [dt_agg / 1000], the even one on a
    tie. *)
Theorem window_continue_or_close
    (cfg : Config) (c : Clock) (w : World)
    (epoch delta_us start : Z) (rest : list Pulse) :
  pulse_list w = (epoch, delta_us) :: rest ->
  old_epoch w = Some start ->
  GLITCH_THRESHOLD_US cfg <= delta_us ->
  let w' := loop_body cfg c w in
  (epoch <= AggStart w + MIN_TIME cfg ->
     emitted (trace w') = emitted (trace w) /\
     AggStart w' = AggStart w /\
     dt_agg w' = dt_agg w + delta_us /\
     pulse_count w' = pulse_count w + 1) /\
  (AggStart w + MIN_TIME cfg < epoch ->
     emitted (trace w') =
       emitted (trace w) ++ [(AggStart w, to_millis (dt_agg w), pulse_count w)] /\
     AggStart w' = epoch /\
     dt_agg w' = delta_us /\
     pulse_count w' = 1 /\
     exists ms,
       emitted (trace w') = emitted (trace w) ++ [(AggStart w, ms, pulse_count w)] /\
       -500 <= 1000 * ms - dt_agg w <= 500 /\
       (Z.abs (1000 * ms - dt_agg w) = 500 -> Z.even ms = true)).
Proof.
  intros Hq Ho Hg w'.
  destruct (loop_body_engine cfg c w (epoch, delta_us) rest Hq) as [He _].
  fold w' in He. unfold engine_step, engine_of in He. simpl in He.
  rewrite Ho in He.
  destruct (Z.ltb_spec delta_us (GLITCH_THRESHOLD_US cfg)) as [Hlt|_]; [lia|].
  destruct (Z.leb_spec epoch (AggStart w + MIN_TIME cfg)) as [Hle|Hgt];
    injection He as _ H1 H2 H3 H4; split; intros Hcmp; try lia.
  - repeat split; assumption.
  - split; [assumption|]. split; [assumption|]. split; [assumption|].
    split; [assumption|].
    exists (to_millis (dt_agg w)). split; [assumption|].
    apply to_millis_nearest_even.
Qed.

Lemma window_continue_or_close_witness :
  let w0 := set_pulse_list [(100, 60000); (101, 80500); (107, 90000)]
              (initial_world 0) in
  let w1 := iterate source_config [mkClock 1 1] w0 in
  let w2 := iterate source_config [mkClock 1 1; mkClock 2 2] w0 in
  (dt_agg (loop_body source_config (mkClock 2 2) w1) = 140500 /\
   pulse_count (loop_body source_config (mkClock 2 2) w1) = 2 /\
   emitted (trace (loop_body source_config (mkClock 2 2) w1)) = []) /\
  (emitted (trace (loop_body source_config (mkClock 3 3) w2)) =
     [(100, 140, 2)] /\
   AggStart (loop_body source_config (mkClock 3 3) w2) = 107 /\
   dt_agg (loop_body source_config (mkClock 3 3) w2) = 90000 /\
   pulse_count (loop_body source_config (mkClock 3 3) w2) = 1).
Proof.
  intros w0 w1 w2. split.
  - destruct (window_continue_or_close source_config (mkClock 2 2) w1
                101 80500 100 [(107, 90000)]) as [Hfold _];
      [reflexivity|reflexivity|simpl; lia|].
    destruct Hfold as (H1 & _ & H3 & H4); [simpl; lia|].
    split; [exact H3|]. split; [exact H4|exact H1].
  - destruct (window_continue_or_close source_config (mkClock 3 3) w2
                107 90000 101 []) as [_ Hclose];
      [reflexivity|reflexivity|simpl; lia|].
    destruct Hclose as (H1 & H2 & H3 & H4 & _); [simpl; lia|].
    split; [exact H1|]. split; [exact H2|]. split; [exact H3|exact H4].
Defined.

(** C7. The stream (100, 60000), (101, 80000), (107, 90000) under the
    source's configuration (minimum window 5 s, glitch threshold 50000 us):
    exactly one row (100, 140, 2) is emitted, and the window left open
    starts at 107 with accumulated interval 90000 and count 1.  This holds
    for every reading of the clock. *)
Theorem end_to_end_scenario (now : Q) (c1 c2 c3 : Clock) :
  let w0 := set_pulse_list [(100, 60000); (101, 80000); (107, 90000)]
              (initial_world now) in
  let w3 := iterate source_config [c1; c2; c3] w0 in
  emitted (trace w3) = [(100, 140, 2)] /\
  old_epoch w3 = Some 107 /\
  AggStart w3 = 107 /\
  dt_agg w3 = 90000 /\
  pulse_count w3 = 1 /\
  pulse_list w3 = [].
Proof.
  intros w0 w3.
  destruct (iterate_engine source_config [c1; c2; c3] w0
              [(100, 60000); (101, 80000); (107, 90000)] [])
    as [He Hp]; [reflexivity|reflexivity|].
  fold w3 in He, Hp. clearbody w3. unfold engine_of in He.
  simpl in He. injection He as H1 H2 H3 H4 H5.
  repeat split; assumption.
Qed.

(** ** Glitch filter *)

(** C4. A pulse whose interval is below the glitch threshold is popped and
    counted in [block_input_pulses] and changes nothing else: window start,
    accumulated interval, count, buffer and trace stay as they were.  This
    is so wherever the pulse stands in the queue, the head of the stream
    included: the windows and emitted rows after the whole queue has been
    processed are those of the queue without the pulse. *)
Theorem glitch_discarded
    (cfg : Config) (w : World) (front back : list Pulse)
    (epoch delta_us : Z) (cs1 cs2 : list Clock) (cg : Clock) :
  delta_us < GLITCH_THRESHOLD_US cfg ->
  pulse_list w = front ++ (epoch, delta_us) :: back ->
  length cs1 = length front ->
  length cs2 = length back ->
  let wg := iterate cfg cs1 w in
  let wg' := loop_body cfg cg wg in
  wg' =
    set_block_input_pulses (block_input_pulses wg + 1)
      (set_pulse_list back wg) /\
  engine_of (iterate cfg (cs1 ++ cg :: cs2) w) =
    engine_of (iterate cfg (cs1 ++ cs2)
                 (set_pulse_list (front ++ back) w)) /\
  block_input_pulses wg' = block_input_pulses wg + 1 /\
  pulse_list wg = (epoch, delta_us) :: back /\
  pulse_list wg' = back /\
  old_epoch wg' = old_epoch wg /\
  AggStart wg' = AggStart wg /\
  dt_agg wg' = dt_agg wg /\
  pulse_count wg' = pulse_count wg /\
  out_buffer wg' = out_buffer wg /\
  block_output_records wg' = block_output_records wg /\
  last_flush_time wg' = last_flush_time wg /\
  trace wg' = trace wg.
Proof.
  intros Hg Hq H1 H2 wg wg'.
  destruct (iterate_engine cfg cs1 w front ((epoch, delta_us) :: back) Hq H1)
    as [Hef Hpf]. fold wg in Hef, Hpf.
  assert (Hstep : wg' =
                  set_block_input_pulses (block_input_pulses wg + 1)
                    (set_pulse_list back wg)).
  { unfold wg', loop_body. rewrite Hpf.
    destruct (Z.ltb_spec delta_us (GLITCH_THRESHOLD_US cfg)); [reflexivity|lia]. }
  split; [exact Hstep|]. split.
  - change (cs1 ++ cg :: cs2) with (cs1 ++ [cg] ++ cs2).
    rewrite !iterate_app. fold wg.
    change (iterate cfg [cg] wg) with wg'. rewrite Hstep.
    set (w' := set_pulse_list (front ++ back) w).
    destruct (iterate_engine cfg cs1 w' front back eq_refl H1) as [Hef' Hpf'].
    destruct (iterate_engine cfg cs2 (iterate cfg cs1 w') back [])
      as [Heb' _]; [now rewrite app_nil_r|assumption|].
    destruct (iterate_engine cfg cs2
                (set_block_input_pulses (block_input_pulses wg + 1)
                   (set_pulse_list back wg)) back [])
      as [Heb _]; [now rewrite app_nil_r|assumption|].
    rewrite Heb, Heb', Hef'.
    change (engine_of (set_block_input_pulses (block_input_pulses wg + 1)
                         (set_pulse_list back wg))) with (engine_of wg).
    now rewrite Hef.
  - split; [|split; [exact Hpf|]].
    + unfold wg', loop_body. rewrite Hpf.
      destruct (Z.ltb_spec delta_us (GLITCH_THRESHOLD_US cfg));
        [reflexivity|lia].
    + unfold wg', loop_body. rewrite Hpf.
      destruct (Z.ltb_spec delta_us (GLITCH_THRESHOLD_US cfg)); [|lia].
      repeat split.
Qed.

Lemma glitch_discarded_witness :
  let w := set_pulse_list [(100, 60000); (101, 12); (102, 80000)]
             (initial_world 0) in
  let wg := iterate source_config [mkClock 1 1] w in
  let wg' := loop_body source_config (mkClock 2 2) wg in
  block_input_pulses wg = 1 /\
  block_input_pulses wg' = 2 /\
  pulse_list wg' = [(102, 80000)] /\
  dt_agg wg' = 60000 /\
  pulse_count wg' = 1 /\
  engine_of (iterate source_config
               [mkClock 1 1; mkClock 2 2; mkClock 3 3] w) =
  mkEngine (Some 102) 100 140000 2 [].
Proof.
  intros w wg wg'.
  destruct (glitch_discarded source_config w [(100, 60000)] [(102, 80000)]
              101 12 [mkClock 1 1] [mkClock 3 3] (mkClock 2 2))
    as (_ & Hstream & Hin & _ & Hq & _ & _ & Hdt & Hpc & _);
    [simpl; lia|reflexivity|reflexivity|reflexivity|].
  split; [reflexivity|].
  split; [etransitivity; [exact Hin|reflexivity]|].
  split; [exact Hq|].
  split; [etransitivity; [exact Hdt|reflexivity]|].
  split; [etransitivity; [exact Hpc|reflexivity]|].
  etransitivity; [exact Hstream|reflexivity].
Defined.

(** ** Shutdown *)

(** C3. When [running] is found false the loop ends; if the window counts
    at least one pulse, exactly one more row
    [(AggStart, round(dt_agg / 1000), pulse_count)] is emitted and the final
    write that follows contains it; if the count is zero nothing more is
    emitted. *)
Theorem shutdown_emits_partial_window
    (cfg : Config) (s : Slot) (rest : list Slot) (w : World) :
  let w0 := env_steps (arrivals s) w in
  running w0 = false ->
  exists w',
    aggregator_loop cfg (s :: rest) w = Some w' /\
    (0 < pulse_count w0 ->
       trace w' =
         trace w0 ++
           [Output (AggStart w0) (to_millis (dt_agg w0)) (pulse_count w0);
            DbWrite
              (out_buffer w0 ++
                 [(AggStart w0, to_millis (dt_agg w0), pulse_count w0)])
              (block_input_pulses w0) (block_output_records w0 + 1)]) /\
    (pulse_count w0 <= 0 -> emitted (trace w') = emitted (trace w0)).
Proof.
  intros w0 Hrun. exists (after_loop (t_flush (clock s)) w0).
  split; [simpl; fold w0; now rewrite Hrun|]. split.
  - intros Hpc. unfold after_loop, shutdown_drain.
    destruct (Z.ltb_spec 0 (pulse_count w0)); [|lia].
    unfold flush_buffer, emit_output. simpl.
    destruct (out_buffer w0); simpl; now rewrite <- app_assoc.
  - intros Hpc. rewrite after_loop_emitted.
    destruct (Z.ltb_spec 0 (pulse_count w0)); [lia|]. now rewrite app_nil_r.
Qed.

Lemma shutdown_emits_partial_window_witness :
  let w := iterate source_config [mkClock 1 1; mkClock 2 2; mkClock 3 3]
             (set_pulse_list [(100, 60000); (101, 80000); (102, 70000)]
                (initial_world 0)) in
  exists w',
    aggregator_loop source_config [mkSlot [Stop] (mkClock 4 4)] w = Some w' /\
    trace w' = [Output 100 210 3; DbWrite [(100, 210, 3)] 3 1].
Proof.
  intros w.
  destruct (shutdown_emits_partial_window source_config
              (mkSlot [Stop] (mkClock 4 4)) [] w) as (w' & Hrun & Hopen & _).
  - reflexivity.
  - exists w'. split; [exact Hrun|].
    etransitivity; [apply Hopen; simpl; lia|reflexivity].
Defined.

(** ** Tick arithmetic *)

(** C6. The interval the callback enqueues is the difference of the two
    ticks modulo 2^32, hence never negative; from previous tick 0xFFFFFFF0
    to tick 0x00000010 it is 0x20, where plain subtraction gives a negative
    number. *)
Theorem interval_is_modular (tick prev epoch : Z) (w : World) :
  let w' := edge_callback 0 tick epoch (set_previous_tick (Some prev) w) in
  pulse_list w' = pulse_list w ++ [(epoch, (tick - prev) mod 2 ^ 32)] /\
  0 <= (tick - prev) mod 2 ^ 32 < 2 ^ 32 /\
  tick_delta 0x00000010 0xFFFFFFF0 = 0x20 /\
  0x00000010 - 0xFFFFFFF0 < 0.
Proof.
  intros w'. unfold w', edge_callback. simpl.
  rewrite tick_delta_mod. repeat split.
  - apply Z.mod_pos_bound. lia.
  - apply Z.mod_pos_bound. lia.
Qed.

(** C9. The callback moves [previous_tick] to every falling edge, also to
    one whose interval the aggregator will discard as a glitch.  With edges
    at ticks [t0], [t1], [t2], the middle interval being a glitch, the
    window receives the interval from [t1] to [t2] only; the interval from
    [t0] to [t2] would be that plus the glitch's interval, which is
    dropped. *)
Theorem glitch_advances_previous_tick
    (cfg : Config) (w : World) (t0 t1 t2 e1 e2 : Z) (c1 c2 : Clock) :
  previous_tick w = Some t0 ->
  pulse_list w = [] ->
  tick_delta t1 t0 < GLITCH_THRESHOLD_US cfg ->
  let w1 := edge_callback 0 t1 e1 w in
  let w2 := edge_callback 0 t2 e2 w1 in
  previous_tick w1 = Some t1 /\
  pulse_list w2 = [(e1, tick_delta t1 t0); (e2, tick_delta t2 t1)] /\
  engine_of (iterate cfg [c1; c2] w2) =
    engine_step cfg (engine_of w) (e2, tick_delta t2 t1) /\
  tick_delta t2 t0 = (tick_delta t1 t0 + tick_delta t2 t1) mod 2 ^ 32.
Proof.
  intros Hprev Hq Hg w1 w2.
  assert (H1 : previous_tick w1 = Some t1).
  { unfold w1, edge_callback. simpl. now rewrite Hprev. }
  assert (Hq1 : pulse_list w1 = [(e1, tick_delta t1 t0)]).
  { unfold w1, edge_callback. simpl. rewrite Hprev. simpl. now rewrite Hq. }
  assert (Hq2 : pulse_list w2 = [(e1, tick_delta t1 t0); (e2, tick_delta t2 t1)]).
  { unfold w2, edge_callback. simpl. rewrite H1. simpl. now rewrite Hq1. }
  assert (He2 : engine_of w2 = engine_of w).
  { change w2 with (env_step (Edge 0 t2 e2) (env_step (Edge 0 t1 e1) w)).
    destruct (env_step_locals (Edge 0 t2 e2) (env_step (Edge 0 t1 e1) w))
      as [Ha _].
    destruct (env_step_locals (Edge 0 t1 e1) w) as [Hb _].
    now rewrite Ha, Hb. }
  repeat split; try assumption.
  - destruct (iterate_engine cfg [c1; c2] w2
                [(e1, tick_delta t1 t0); (e2, tick_delta t2 t1)] [])
      as [He _]; [assumption|reflexivity|].
    rewrite He, He2. simpl.
    destruct (Z.ltb_spec (tick_delta t1 t0) (GLITCH_THRESHOLD_US cfg));
      [reflexivity|lia].
  - rewrite !tick_delta_mod. rewrite <- Z.add_mod by lia.
    f_equal. lia.
Qed.

Lemma glitch_advances_previous_tick_witness :
  let w := set_previous_tick (Some 1000) (initial_world 0) in
  let w2 := edge_callback 0 91000 101 (edge_callback 0 1020 100 w) in
  pulse_list w2 = [(100, 20); (101, 89980)] /\
  engine_of (iterate source_config [mkClock 1 1; mkClock 2 2] w2) =
    mkEngine (Some 101) 101 89980 1 [].
Proof.
  intros w w2.
  destruct (glitch_advances_previous_tick source_config w 1000 1020 91000
              100 101 (mkClock 1 1) (mkClock 2 2)) as (_ & Hq & He & _).
  - reflexivity.
  - reflexivity.
  - vm_compute. reflexivity.
  - split; [exact Hq|]. etransitivity; [exact He|reflexivity].
Defined.

(** ** Persistence buffer *)

(** C10. [flush_buffer] called with an empty buffer returns the state it
    was given: [last_flush_time], [block_input_pulses] and
    [block_output_records] keep their values and nothing is written, so the
    flush interval keeps running from the last write that had rows. *)
Theorem empty_flush_changes_nothing (now : Q) (w : World) :
  out_buffer w = [] ->
  flush_buffer now w = w /\
  last_flush_time (flush_buffer now w) = last_flush_time w /\
  block_input_pulses (flush_buffer now w) = block_input_pulses w /\
  block_output_records (flush_buffer now w) = block_output_records w /\
  written (trace (flush_buffer now w)) = written (trace w).
Proof.
  intros Hb. unfold flush_buffer. rewrite Hb. repeat split.
Qed.

Lemma empty_flush_changes_nothing_witness :
  let w := iterate source_config [mkClock 1 1; mkClock 2 2]
             (set_pulse_list [(100, 60000); (101, 12)] (initial_world 7)) in
  last_flush_time (flush_buffer 500 w) = 7%Q /\
  block_input_pulses (flush_buffer 500 w) = 2.
Proof.
  intros w.
  destruct (empty_flush_changes_nothing 500 w) as (_ & Ht & Hi & _).
  - reflexivity.
  - split.
    + etransitivity; [exact Ht|reflexivity].
    + etransitivity; [exact Hi|reflexivity].
Defined.

(** ** Emitted rows *)

(** C8. With a glitch threshold above 500 us (the source has 50000) every
    row the loop emits, while running and at shutdown, has a positive pulse
    count and a positive number of elapsed milliseconds. *)
Theorem emitted_rows_positive (cfg : Config) (w : World) (now : Q) :
  500 < GLITCH_THRESHOLD_US cfg ->
  reachable cfg w ->
  Forall row_positive (emitted (trace w)) /\
  Forall row_positive (emitted (trace (after_loop now w))).
Proof.
  intros HT Hr.
  destruct (reachable_engine_ok cfg w HT Hr) as (_ & _ & Hdt & Hall).
  simpl in Hdt, Hall. split; [assumption|].
  rewrite after_loop_emitted. apply Forall_app. split; [assumption|].
  destruct (Z.ltb_spec 0 (pulse_count w)) as [Hpc|_]; constructor.
  - simpl. split; [assumption|]. apply py_round_div_1000_pos. nia.
  - constructor.
Qed.

Lemma emitted_rows_positive_witness :
  let w := loop_body source_config (mkClock 3 3)
             (loop_body source_config (mkClock 2 2)
                (env_step (Edge 0 150000 107)
                   (env_step (Edge 0 60000 100)
                      (env_step (Edge 0 0 99) (initial_world 0))))) in
  emitted (trace (after_loop 4 w)) = [(100, 60, 1); (107, 90, 1)] /\
  Forall row_positive (emitted (trace (after_loop 4 w))).
Proof.
  intros w. split; [reflexivity|].
  apply (emitted_rows_positive source_config w 4).
  - simpl. lia.
  - unfold w. apply reach_body; [apply reach_body|reflexivity];
      [repeat apply reach_env; apply reach_init|reflexivity].
Defined.

(** ** Stop request *)

Lemma loop_body_running (cfg : Config) (c : Clock) (w : World) :
  running (loop_body cfg c w) = running w.
Proof.
  unfold loop_body. destruct (pulse_list w) as [|[epoch delta_us] rest].
  - destruct (time_due cfg (t_check c) w); [|reflexivity].
    now destruct (flush_buffer_globals (t_flush c) w) as (_ & _ & H).
  - simpl. destruct (delta_us <? GLITCH_THRESHOLD_US cfg); [reflexivity|].
    destruct (old_epoch w); [|reflexivity].
    match goal with
    | |- running (flush_if_due cfg c ?p) = _ =>
        destruct (flush_if_due_globals cfg c p) as (_ & _ & H); rewrite H
    end.
    unfold window_step. simpl.
    now destruct (epoch <=? AggStart w + MIN_TIME cfg).
Qed.

Lemma reachable_env_steps (cfg : Config) (es : list EnvEvent) :
  forall w, reachable cfg w -> reachable cfg (env_steps es w).
Proof.
  induction es as [|e es IH]; intros w Hr; [assumption|].
  apply (IH (env_step e w)). now apply reach_env.
Qed.

Lemma reachable_iterate (cfg : Config) (cs : list Clock) :
  forall w,
    reachable cfg w -> running w = true -> reachable cfg (iterate cfg cs w).
Proof.
  induction cs as [|c cs IH]; intros w Hr Hrun; [assumption|].
  apply (IH (loop_body cfg c w)).
  - now apply reach_body.
  - now rewrite loop_body_running.
Qed.

Lemma after_loop_pulse_list (now : Q) (w : World) :
  pulse_list (after_loop now w) = pulse_list w.
Proof.
  unfold after_loop.
  destruct (flush_buffer_globals now (shutdown_drain w)) as [H _]. rewrite H.
  unfold shutdown_drain. now destruct (0 <? pulse_count w).
Qed.

(** C2, as the code has it.  When [running] is found false the loop is left
    at once: the pulses still in [pulse_list] stay there, unprocessed; the
    last window is emitted as it stands and the buffer is written. *)
Theorem stop_leaves_queue_unprocessed
    (cfg : Config) (s : Slot) (rest : list Slot) (w : World) :
  let w0 := env_steps (arrivals s) w in
  running w0 = false ->
  let w' := after_loop (t_flush (clock s)) w0 in
  aggregator_loop cfg (s :: rest) w = Some w' /\
  pulse_list w' = pulse_list w0 /\
  emitted (trace w') =
    emitted (trace w0) ++
      (if 0 <? pulse_count w0
       then [(AggStart w0, to_millis (dt_agg w0), pulse_count w0)] else []).
Proof.
  intros w0 Hrun w'. repeat split.
  - simpl. fold w0. now rewrite Hrun.
  - apply after_loop_pulse_list.
  - apply after_loop_emitted.
Qed.

Lemma stop_leaves_queue_unprocessed_witness :
  let w := loop_body source_config (mkClock 1 1)
             (env_steps [Edge 0 1000 100; Edge 0 61000 100; Edge 0 141000 101]
                (initial_world 0)) in
  exists w',
    aggregator_loop source_config [mkSlot [Stop] (mkClock 2 2)] w = Some w' /\
    pulse_list w' = [(101, 80000)] /\
    emitted (trace w') = [(100, 60, 1)].
Proof.
  intros w.
  destruct (stop_leaves_queue_unprocessed source_config
              (mkSlot [Stop] (mkClock 2 2)) [] w) as (Hl & Hq & He).
  - reflexivity.
  - eexists. split; [exact Hl|]. split.
    + etransitivity; [exact Hq|reflexivity].
    + etransitivity; [exact He|reflexivity].
Defined.

(** C2, counterexample.  Two pulses are queued; the loop processes the
    first; the stop arrives; the loop ends with the second pulse still in
    the queue, and the row written for the window counts one pulse. *)
Lemma stop_drains_channel_counterexample :
  let w := env_step Stop
             (loop_body source_config (mkClock 1 1)
                (env_steps
                   [Edge 0 1000 100; Edge 0 61000 100; Edge 0 141000 101]
                   (initial_world 0))) in
  running w = false /\
  pulse_list w = [(101, 80000)] /\
  (exists w',
     aggregator_loop source_config [mkSlot [] (mkClock 2 2)] w = Some w' /\
     pulse_list w' = [(101, 80000)] /\
     written (trace w') = [[(100, 60, 1)]]) /\
  ~ stop_drains_channel source_config.
Proof.
  intros w. split; [reflexivity|]. split; [reflexivity|]. split.
  - eexists. split; [reflexivity|]. split; reflexivity.
  - intros H.
    specialize (H w (mkClock 2 2) []
                  (after_loop 2 w) eq_refl eq_refl).
    discriminate H.
Qed.

(** ** Flush policy *)

Lemma window_step_written (cfg : Config) (epoch delta_us : Z) (w : World) :
  written (trace (window_step cfg epoch delta_us w)) = written (trace w).
Proof.
  unfold window_step. destruct (epoch <=? AggStart w + MIN_TIME cfg); simpl.
  - reflexivity.
  - rewrite written_app. simpl. now rewrite app_nil_r.
Qed.

Lemma policy_point_written (cfg : Config) (w p : World) :
  policy_point cfg w = Some p -> written (trace p) = written (trace w).
Proof.
  unfold policy_point. destruct (pulse_list w) as [|[epoch delta_us] rest].
  - intros H. now injection H as <-.
  - simpl. destruct (delta_us <? GLITCH_THRESHOLD_US cfg); [discriminate|].
    destruct (old_epoch w); [|discriminate].
    intros H. injection H as <-. simpl. now rewrite window_step_written.
Qed.

(** The policy test writes exactly when there are rows and one of the two
    conditions holds. *)
Lemma flush_if_due_wrote (cfg : Config) (c : Clock) (w p : World) :
  written (trace p) = written (trace w) ->
  wrote w (flush_if_due cfg c p) = true <->
  out_buffer p <> [] /\
  (time_due cfg (t_check c) p = true \/ size_due cfg p = true).
Proof.
  intros Hw. unfold wrote, flush_if_due.
  destruct (time_due cfg (t_check c) p || size_due cfg p) eqn:Hdue.
  - rewrite flush_buffer_written, Hw. apply orb_true_iff in Hdue.
    destruct (out_buffer p) as [|r b].
    + rewrite app_nil_r, Nat.ltb_irrefl. split; [discriminate|].
      intros [Hne _]. now elim Hne.
    + rewrite length_app. simpl. split.
      * intros _. split; [discriminate|assumption].
      * intros _. apply Nat.ltb_lt. lia.
  - rewrite Hw, Nat.ltb_irrefl. apply orb_false_iff in Hdue.
    destruct Hdue as [Ht Hs]. split; [discriminate|].
    intros [_ [H|H]]; congruence.
Qed.

(** C5, as the code has it.  The policy is evaluated in an iteration that
    finds the channel empty and in an iteration that folds a pulse into the
    window or closes the window, on the state [p] reached at that point;
    there the buffered rows are written exactly when the flush interval has
    elapsed or the buffer has reached the cap.  An iteration that discards
    a glitch or seeds the first window does not evaluate it and writes
    nothing.  A buffer that reaches the cap is written in the same
    iteration whatever the clock says, so the buffer stays below the cap at
    every test of [running] and never exceeds it at shutdown. *)
Theorem flush_policy_at_policy_points
    (cfg : Config) (c : Clock) (w : World) :
  1 <= MAX_RECORDS cfg ->
  reachable cfg w ->
  let w' := loop_body cfg c w in
  (forall p, policy_point cfg w = Some p ->
     w' = flush_if_due cfg c p /\
     (wrote w w' = true <->
      out_buffer p <> [] /\
      (time_due cfg (t_check c) p = true \/ size_due cfg p = true)) /\
     (size_due cfg p = true -> wrote w w' = true /\ out_buffer w' = [])) /\
  (policy_point cfg w = None ->
     wrote w w' = false /\ out_buffer w' = out_buffer w) /\
  Z.of_nat (length (out_buffer w')) < MAX_RECORDS cfg /\
  Z.of_nat (length (out_buffer (shutdown_drain w))) <= MAX_RECORDS cfg.
Proof.
  intros Hcap Hr w'.
  pose proof (reachable_below_cap cfg w Hcap Hr) as Hlen.
  assert (HS : forall p, policy_point cfg w = Some p ->
                         w' = flush_if_due cfg c p).
  { intros p Hp. unfold w', loop_body. unfold policy_point in Hp.
    destruct (pulse_list w) as [|[epoch delta_us] rest].
    - injection Hp as <-. unfold flush_if_due.
      assert (Hs : size_due cfg w = false).
      { unfold size_due. apply Z.leb_gt. assumption. }
      rewrite Hs, orb_false_r. reflexivity.
    - simpl in *. destruct (delta_us <? GLITCH_THRESHOLD_US cfg); [discriminate|].
      destruct (old_epoch w); [|discriminate].
      now injection Hp as <-. }
  assert (HN : policy_point cfg w = None ->
               wrote w w' = false /\ out_buffer w' = out_buffer w).
  { intros Hp. unfold w', loop_body, wrote. unfold policy_point in Hp.
    destruct (pulse_list w) as [|[epoch delta_us] rest]; [discriminate|].
    simpl in *. destruct (delta_us <? GLITCH_THRESHOLD_US cfg).
    - simpl. now rewrite Nat.ltb_irrefl.
    - destruct (old_epoch w); [discriminate|].
      simpl. now rewrite Nat.ltb_irrefl. }
  split; [|split; [exact HN|split]].
  - intros p Hp. rewrite (HS p Hp).
    pose proof (flush_if_due_wrote cfg c w p (policy_point_written cfg w p Hp))
      as Hiff.
    split; [reflexivity|]. split; [exact Hiff|].
    intros Hs. split.
    + apply Hiff. split; [|now right].
      unfold size_due in Hs. apply Z.leb_le in Hs.
      intros He. rewrite He in Hs. simpl in Hs. lia.
    + unfold flush_if_due. rewrite Hs, orb_true_r. apply flush_buffer_empties.
  - destruct (policy_point cfg w) as [p|] eqn:Hp.
    + rewrite (HS p eq_refl). now apply flush_if_due_below_cap.
    + destruct (HN eq_refl) as [_ Hb]. now rewrite Hb.
  - unfold shutdown_drain. destruct (0 <? pulse_count w); [|lia].
    simpl. rewrite length_app. simpl. lia.
Qed.

Lemma flush_policy_at_policy_points_witness :
  let w := iterate cap5_config
             [mkClock 1 1; mkClock 1 1; mkClock 1 1; mkClock 1 1; mkClock 1 1]
             (env_steps
                [Edge 0 0 99; Edge 0 60000 100; Edge 0 120000 110;
                 Edge 0 180000 120; Edge 0 240000 130; Edge 0 300000 140;
                 Edge 0 360000 150]
                (initial_world 0)) in
  let w' := loop_body cap5_config (mkClock 1 1) w in
  length (out_buffer w) = 4%nat /\
  time_due cap5_config 1 w = false /\
  wrote w w' = true /\
  out_buffer w' = [].
Proof.
  intros w w'. split; [reflexivity|]. split; [reflexivity|].
  destruct (flush_policy_at_policy_points cap5_config (mkClock 1 1) w)
    as (HS & _).
  - simpl. lia.
  - apply reachable_iterate; [|reflexivity].
    apply reachable_env_steps. apply reach_init.
  - edestruct (HS _ eq_refl) as (_ & _ & Hfull).
    apply Hfull. reflexivity.
Defined.

(** C5, counterexample.  One row is buffered and 1000 s have passed since
    the last write; the iteration pops a glitch, takes the [continue] and
    writes nothing. *)
Lemma flush_when_due_counterexample :
  let w := env_step (Edge 0 150010 108)
             (iterate source_config [mkClock 1 1; mkClock 1 1]
                (env_steps [Edge 0 0 99; Edge 0 60000 100; Edge 0 150000 107]
                   (initial_world 0))) in
  let w' := loop_body source_config (mkClock 1000 1000) w in
  out_buffer w = [(100, 60, 1)] /\
  pulse_list w = [(108, 10)] /\
  time_due source_config 1000 w = true /\
  wrote w w' = false /\
  out_buffer w' = [(100, 60, 1)] /\
  ~ flushes_when_time_due source_config.
Proof.
  intros w w'. repeat (split; [reflexivity|]).
  intros H.
  assert (Hr : reachable source_config w).
  { apply reach_env. apply reachable_iterate; [|reflexivity].
    apply reachable_env_steps. apply reach_init. }
  specialize (H (mkClock 1000 1000) w Hr eq_refl).
  assert (Hne : out_buffer w <> []) by discriminate.
  specialize (H Hne eq_refl). discriminate H.
Qed.

(** * Further properties of the collector *)

(** ** Rounding to milliseconds *)

(** X1. [round(dt / 1000)] is within half a millisecond of the exact
    quotient, and it is monotone: a longer accumulated interval never gives
    fewer milliseconds. *)
Theorem to_millis_error_and_monotone (n m : Z) :
  -500 <= 1000 * to_millis n - n <= 500 /\
  (n <= m -> to_millis n <= to_millis m).
Proof.
  assert (Hb : forall k, -500 <= 1000 * to_millis k - k <= 500).
  { intros k. unfold to_millis, py_round_div.
    pose proof (Z.div_mod k 1000 ltac:(lia)) as Hdm.
    pose proof (Z.mod_pos_bound k 1000 ltac:(lia)) as Hr.
    destruct (Z.compare_spec (2 * (k mod 1000)) 1000);
      [destruct (Z.even (k / 1000))|..]; lia. }
  split; [apply Hb|].
  intros Hle.
  destruct (Z.eq_dec (n / 1000) (m / 1000)) as [Heq|Hne].
  - unfold to_millis, py_round_div. rewrite Heq.
    pose proof (Z.div_mod n 1000 ltac:(lia)) as Hn.
    pose proof (Z.div_mod m 1000 ltac:(lia)) as Hm.
    rewrite Heq in Hn.
    destruct (Z.compare_spec (2 * (n mod 1000)) 1000);
      destruct (Z.compare_spec (2 * (m mod 1000)) 1000);
      destruct (Z.even (m / 1000)); lia.
  - assert (Hlt : n / 1000 < m / 1000).
    { pose proof (Z.div_le_mono n m 1000 ltac:(lia) Hle). lia. }
    unfold to_millis, py_round_div.
    destruct (Z.compare_spec (2 * (n mod 1000)) 1000);
      destruct (Z.compare_spec (2 * (m mod 1000)) 1000);
      destruct (Z.even (n / 1000)); destruct (Z.even (m / 1000)); lia.
Qed.

Lemma to_millis_error_and_monotone_witness :
  to_millis 1500 = 2 /\ to_millis 2500 = 2 /\ to_millis 1500 <= to_millis 2500.
Proof.
  split; [reflexivity|]. split; [reflexivity|].
  apply (to_millis_error_and_monotone 1500 2500). lia.
Defined.

(** ** The callback as producer *)

Lemma env_step_cases (e : EnvEvent) (w : World) :
  (is_falling e = false /\
   pulse_list (env_step e w) = pulse_list w /\
   previous_tick (env_step e w) = previous_tick w) \/
  (exists level tick epoch,
     e = Edge level tick epoch /\ is_falling e = true /\
     previous_tick (env_step e w) = Some tick /\
     pulse_list (env_step e w) =
       pulse_list w ++
         match previous_tick w with
         | None => []
         | Some prev => [(epoch, tick_delta tick prev)]
         end).
Proof.
  destruct e as [level tick epoch|]; simpl; [|left; repeat split].
  unfold edge_callback. destruct (level =? 0) eqn:Hl; simpl.
  - right. exists level, tick, epoch. repeat split.
    + now destruct (previous_tick w).
    + destruct (previous_tick w); simpl; [reflexivity|now rewrite app_nil_r].
  - left. repeat split.
Qed.

(** X2. The callback only appends: whatever arrives, the pulses already
    queued stay at the front in their order.  Every falling edge adds one
    pulse, except the very first, which only seeds [previous_tick]; other
    levels and the stop signal add none.  Every interval added lies in
    [0, 2^32). *)
Theorem edges_enqueue_in_order (es : list EnvEvent) (w : World) :
  exists added,
    pulse_list (env_steps es w) = pulse_list w ++ added /\
    length added =
      (length (filter is_falling es) -
       match previous_tick w with None => 1 | Some _ => 0 end)%nat /\
    Forall (fun p => 0 <= snd p < 2 ^ 32) added.
Proof.
  revert w. induction es as [|e es IH]; intros w.
  - exists []. simpl. rewrite app_nil_r.
    split; [reflexivity|]. split; [|constructor].
    now destruct (previous_tick w).
  - destruct (IH (env_step e w)) as (added & Hq & Hlen & Hall).
    change (env_steps (e :: es) w) with (env_steps es (env_step e w)).
    destruct (env_step_cases e w)
      as [(Hf & Hp & Ht)|(level & tick & epoch & -> & Hf & Ht & Hp)].
    + exists added. simpl filter. rewrite Hf.
      rewrite Hq, Hp, Hlen, Ht. repeat split. assumption.
    + simpl filter. simpl in Hf. rewrite Hf. rewrite Ht in Hlen.
      destruct (previous_tick w) as [prev|].
      * exists ((epoch, tick_delta tick prev) :: added).
        rewrite Hq, Hp, <- app_assoc. simpl. repeat split.
        -- lia.
        -- constructor; [apply tick_delta_range|assumption].
      * exists added. rewrite Hq, Hp, app_nil_r. simpl. repeat split.
        -- lia.
        -- assumption.
Qed.

(** X3. The intervals enqueued between two values of [previous_tick] add up,
    modulo 2^32, to the distance between the two ticks: no tick of the
    counter is lost or counted twice by the callback, wrap-around
    included. *)
Theorem intervals_telescope (es : list EnvEvent) (w : World) (t0 : Z) :
  previous_tick w = Some t0 ->
  exists t1 added,
    previous_tick (env_steps es w) = Some t1 /\
    pulse_list (env_steps es w) = pulse_list w ++ added /\
    sum_deltas added mod 2 ^ 32 = (t1 - t0) mod 2 ^ 32.
Proof.
  revert w t0. induction es as [|e es IH]; intros w t0 Hprev.
  - exists t0, []. simpl. rewrite app_nil_r, Z.sub_diag. repeat split.
    assumption.
  - change (env_steps (e :: es) w) with (env_steps es (env_step e w)).
    destruct (env_step_cases e w)
      as [(Hf & Hp & Ht)|(level & tick & epoch & -> & Hf & Ht & Hp)].
    + destruct (IH (env_step e w) t0) as (t1 & added & H1 & H2 & H3).
      { now rewrite Ht. }
      exists t1, added. rewrite H1, H2, Hp. repeat split. assumption.
    + destruct (IH (env_step (Edge level tick epoch) w) tick Ht)
        as (t1 & added & H1 & H2 & H3).
      rewrite Hprev in Hp.
      exists t1, ((epoch, tick_delta tick t0) :: added).
      rewrite H1, H2, Hp, <- app_assoc. repeat split.
      change (sum_deltas ((epoch, tick_delta tick t0) :: added))
        with (tick_delta tick t0 + sum_deltas added).
      rewrite Z.add_mod by lia. rewrite H3, tick_delta_mod.
      rewrite Z.mod_mod by lia. rewrite <- Z.add_mod by lia.
      f_equal. lia.
Qed.

Lemma intervals_telescope_witness :
  exists t1 added,
    previous_tick
      (env_steps [Edge 0 0x00000010 100; Edge 1 0x20 100; Edge 0 0x50 101]
         (set_previous_tick (Some 0xFFFFFFF0) (initial_world 0))) = Some t1 /\
    pulse_list
      (env_steps [Edge 0 0x00000010 100; Edge 1 0x20 100; Edge 0 0x50 101]
         (set_previous_tick (Some 0xFFFFFFF0) (initial_world 0))) =
      [] ++ added /\
    sum_deltas added mod 2 ^ 32 = (t1 - 0xFFFFFFF0) mod 2 ^ 32.
Proof.
  apply (intervals_telescope
           [Edge 0 0x00000010 100; Edge 1 0x20 100; Edge 0 0x50 101]
           (set_previous_tick (Some 0xFFFFFFF0) (initial_world 0))
           0xFFFFFFF0).
  reflexivity.
Defined.

(** ** Bounds kept by the loop *)

(** X4. At every test of [running], every queued interval lies in
    [0, 2^32), the pulse count is not negative, and the accumulated
    interval lies between 0 and (2^32 - 1) times the pulse count. *)
Theorem queue_and_window_bounds (cfg : Config) (w : World) :
  reachable cfg w ->
  Forall (fun p => 0 <= snd p < 2 ^ 32) (pulse_list w) /\
  0 <= pulse_count w /\
  0 <= dt_agg w <= (2 ^ 32 - 1) * pulse_count w.
Proof.
  intros Hr. induction Hr as [now|e w Hr IH|c w Hr IH Hrun].
  - simpl. repeat split; try lia. constructor.
  - destruct IH as (Hq & Hpc & Hdt).
    destruct (env_step_locals e w) as [He _].
    pose proof (f_equal e_pulse_count He) as Epc.
    pose proof (f_equal e_dt_agg He) as Edt. simpl in Epc, Edt.
    rewrite Epc, Edt. split; [|split; assumption].
    destruct (env_step_cases e w)
      as [(_ & Hp & _)|(level & tick & epoch & _ & _ & _ & Hp)]; rewrite Hp.
    + assumption.
    + apply Forall_app. split; [assumption|].
      destruct (previous_tick w); constructor;
        [apply tick_delta_range|constructor].
  - destruct IH as (Hq & Hpc & Hdt).
    destruct (pulse_list w) as [|[epoch delta_us] rest] eqn:Hl.
    + destruct (loop_body_idle_engine cfg c w Hl) as [He Hp].
      pose proof (f_equal e_pulse_count He) as Epc.
      pose proof (f_equal e_dt_agg He) as Edt. simpl in Epc, Edt.
      rewrite Epc, Edt, Hp. split; [constructor|split; assumption].
    + destruct (loop_body_engine cfg c w (epoch, delta_us) rest Hl)
        as [He Hp].
      pose proof (f_equal e_pulse_count He) as Epc.
      pose proof (f_equal e_dt_agg He) as Edt.
      apply Forall_cons_iff in Hq. destruct Hq as [Hd Hrest]. simpl in Hd.
      rewrite Hp. split; [assumption|].
      change (e_pulse_count (engine_of (loop_body cfg c w)))
        with (pulse_count (loop_body cfg c w)) in Epc.
      change (e_dt_agg (engine_of (loop_body cfg c w)))
        with (dt_agg (loop_body cfg c w)) in Edt.
      rewrite Epc, Edt. clear Epc Edt He.
      assert (Hd' : 0 <= delta_us <= 2 ^ 32 - 1) by lia.
      remember (2 ^ 32 - 1) as B eqn:HB.
      assert (HBpos : 0 <= B) by lia. clear HB Hd.
      unfold engine_step. simpl.
      destruct (delta_us <? GLITCH_THRESHOLD_US cfg); [split; assumption|].
      destruct (old_epoch w); [|simpl; lia].
      destruct (epoch <=? AggStart w + MIN_TIME cfg); simpl; lia.
Qed.

Lemma queue_and_window_bounds_witness :
  0 <= dt_agg
         (iterate source_config [mkClock 1 1; mkClock 1 1]
            (env_steps [Edge 0 0xFFFFFFF0 99; Edge 0 0x10000 100;
                        Edge 0 0x30000 101] (initial_world 0)))
    <= (2 ^ 32 - 1) * 2.
Proof.
  apply (queue_and_window_bounds source_config
           (iterate source_config [mkClock 1 1; mkClock 1 1]
              (env_steps [Edge 0 0xFFFFFFF0 99; Edge 0 0x10000 100;
                          Edge 0 0x30000 101] (initial_world 0)))).
  apply reachable_iterate; [|reflexivity].
  apply reachable_env_steps. apply reach_init.
Defined.

(** ** What becomes of the emitted rows *)

Lemma flush_buffer_accounts (now : Q) (w : World) :
  concat (written (trace (flush_buffer now w))) ++
    out_buffer (flush_buffer now w) =
  concat (written (trace w)) ++ out_buffer w.
Proof.
  rewrite flush_buffer_written, flush_buffer_empties, app_nil_r.
  destruct (out_buffer w) as [|r b].
  - now rewrite !app_nil_r.
  - rewrite concat_app. simpl. now rewrite app_nil_r.
Qed.

Lemma flush_buffer_emitted (now : Q) (w : World) :
  emitted (trace (flush_buffer now w)) = emitted (trace w).
Proof. exact (f_equal e_emitted (flush_buffer_engine now w)). Qed.

Lemma window_step_accounts (cfg : Config) (epoch delta_us : Z) (w : World) :
  concat (written (trace w)) ++ out_buffer w = emitted (trace w) ->
  concat (written (trace (window_step cfg epoch delta_us w))) ++
    out_buffer (window_step cfg epoch delta_us w) =
  emitted (trace (window_step cfg epoch delta_us w)).
Proof.
  intros H. rewrite window_step_written. unfold window_step.
  destruct (epoch <=? AggStart w + MIN_TIME cfg); simpl; [assumption|].
  now rewrite emitted_app, app_assoc, H.
Qed.

(** X5. Every row handed to [emit_output] is either already written or
    still in the buffer, once and in emission order; when the loop has
    ended and the final flush is done the buffer is empty and the batches
    written, laid end to end, are exactly the rows emitted. *)
Theorem rows_written_or_buffered (cfg : Config) (w : World) (now : Q) :
  reachable cfg w ->
  concat (written (trace w)) ++ out_buffer w = emitted (trace w) /\
  concat (written (trace (after_loop now w))) =
    emitted (trace (after_loop now w)) /\
  out_buffer (after_loop now w) = [].
Proof.
  intros Hr.
  assert (Hinv : concat (written (trace w)) ++ out_buffer w
                 = emitted (trace w)).
  { induction Hr as [t|e w Hr IH|c w Hr IH Hrun].
    - reflexivity.
    - destruct (env_step_locals e w) as (_ & Hb & _ & Ht). now rewrite Hb, Ht.
    - unfold loop_body. destruct (pulse_list w) as [|[epoch delta_us] rest].
      + destruct (time_due cfg (t_check c) w); [|assumption].
        now rewrite flush_buffer_accounts, flush_buffer_emitted.
      + simpl. destruct (delta_us <? GLITCH_THRESHOLD_US cfg); [assumption|].
        destruct (old_epoch w); [|assumption].
        unfold flush_if_due.
        match goal with
        | |- context [if ?b then _ else _] => destruct b
        end.
        * rewrite flush_buffer_accounts, flush_buffer_emitted.
          apply (window_step_accounts cfg epoch delta_us
                   (set_block_input_pulses (block_input_pulses w + 1)
                      (set_pulse_list rest w))).
          assumption.
        * apply (window_step_accounts cfg epoch delta_us
                   (set_block_input_pulses (block_input_pulses w + 1)
                      (set_pulse_list rest w))).
          assumption. }
  split; [assumption|]. unfold after_loop.
  pose proof (flush_buffer_accounts now (shutdown_drain w)) as Ha.
  rewrite flush_buffer_empties, app_nil_r in Ha.
  split; [|apply flush_buffer_empties].
  rewrite Ha, flush_buffer_emitted.
  unfold shutdown_drain. destruct (0 <? pulse_count w); [|assumption].
  simpl. rewrite written_app, emitted_app. simpl.
  now rewrite app_nil_r, app_assoc, Hinv.
Qed.

Lemma rows_written_or_buffered_witness :
  concat
    (written
       (trace
          (after_loop 9
             (iterate source_config [mkClock 1 1; mkClock 70 71; mkClock 72 72]
                (env_steps
                   [Edge 0 0 99; Edge 0 60000 100; Edge 0 150000 107;
                    Edge 0 250000 120]
                   (initial_world 0)))))) =
  [(100, 60, 1); (107, 90, 1); (120, 100, 1)].
Proof.
  etransitivity.
  - apply (rows_written_or_buffered source_config
             (iterate source_config [mkClock 1 1; mkClock 70 71; mkClock 72 72]
                (env_steps
                   [Edge 0 0 99; Edge 0 60000 100; Edge 0 150000 107;
                    Edge 0 250000 120]
                   (initial_world 0))) 9).
    apply reachable_iterate; [|reflexivity].
    apply reachable_env_steps. apply reach_init.
  - reflexivity.
Defined.

(** ** What is written *)

Lemma flush_buffer_write_ok (cfg : Config) (now : Q) (w : World) :
  block_output_records w = Z.of_nat (length (out_buffer w)) ->
  Z.of_nat (length (out_buffer w)) <= MAX_RECORDS cfg ->
  Forall (write_ok cfg) (trace w) ->
  block_output_records (flush_buffer now w) =
    Z.of_nat (length (out_buffer (flush_buffer now w))) /\
  Forall (write_ok cfg) (trace (flush_buffer now w)).
Proof.
  intros Hc Hlen Hall. unfold flush_buffer.
  destruct (out_buffer w) as [|r b] eqn:Hb.
  { cbv beta iota. rewrite Hb. split; assumption. }
  simpl. split; [reflexivity|].
  apply Forall_app. split; [assumption|].
  constructor; [|constructor]. simpl. repeat split.
  - discriminate.
  - exact Hlen.
  - exact Hc.
Qed.

Lemma window_step_write_ok (cfg : Config) (epoch delta_us : Z) (w : World) :
  block_output_records w = Z.of_nat (length (out_buffer w)) ->
  Forall (write_ok cfg) (trace w) ->
  let w' := window_step cfg epoch delta_us w in
  block_output_records w' = Z.of_nat (length (out_buffer w')) /\
  Forall (write_ok cfg) (trace w') /\
  (length (out_buffer w') <= S (length (out_buffer w)))%nat.
Proof.
  intros Hc Hall w'. unfold w', window_step.
  destruct (epoch <=? AggStart w + MIN_TIME cfg); simpl.
  - repeat split; [assumption|assumption|lia].
  - rewrite length_app. simpl. repeat split.
    + lia.
    + apply Forall_app. split; [assumption|]. repeat constructor.
    + lia.
Qed.

(** X6. Every write the loop makes, the final one included, carries at
    least one row and at most [MAX_RECORDS] rows, and the [outputs=] figure
    reported with it is the number of rows written. *)
Theorem writes_are_bounded_batches (cfg : Config) (w : World) (now : Q) :
  1 <= MAX_RECORDS cfg ->
  reachable cfg w ->
  Forall (write_ok cfg) (trace w) /\
  Forall (write_ok cfg) (trace (after_loop now w)).
Proof.
  intros Hcap Hr.
  assert (Hinv : block_output_records w = Z.of_nat (length (out_buffer w)) /\
                 Forall (write_ok cfg) (trace w)).
  { induction Hr as [t|e w Hr IH|c w Hr IH Hrun].
    - simpl. split; [reflexivity|constructor].
    - destruct (env_step_locals e w) as (_ & Hb & _ & Ht).
      rewrite Hb, Ht. destruct IH as [Hc Hall]. split; [|assumption].
      rewrite <- Hc. now destruct e as [l t ep|];
        [unfold env_step, edge_callback;
         destruct (negb (l =? 0)); [|destruct (previous_tick w)]|].
    - destruct IH as [Hc Hall].
      pose proof (reachable_below_cap cfg w Hcap Hr) as Hlen.
      unfold loop_body. destruct (pulse_list w) as [|[epoch delta_us] rest].
      + destruct (time_due cfg (t_check c) w); [|now split].
        apply flush_buffer_write_ok; [assumption|lia|assumption].
      + simpl. destruct (delta_us <? GLITCH_THRESHOLD_US cfg); [now split|].
        destruct (old_epoch w); [|now split].
        destruct (window_step_write_ok cfg epoch delta_us
                    (set_block_input_pulses (block_input_pulses w + 1)
                       (set_pulse_list rest w)) Hc Hall)
          as (Hc' & Hall' & Hgrow).
        simpl in Hgrow. unfold flush_if_due.
        match goal with
        | |- context [if ?b then _ else _] => destruct b
        end; [|now split].
        apply flush_buffer_write_ok; [exact Hc'| |exact Hall'].
        simpl. lia. }
  destruct Hinv as [Hc Hall]. split; [assumption|].
  pose proof (reachable_below_cap cfg w Hcap Hr) as Hlen.
  unfold after_loop, shutdown_drain.
  destruct (0 <? pulse_count w).
  - apply flush_buffer_write_ok; simpl.
    + rewrite length_app. simpl. lia.
    + rewrite length_app. simpl. lia.
    + apply Forall_app. split; [assumption|]. repeat constructor.
  - apply flush_buffer_write_ok; [assumption|lia|assumption].
Qed.

Lemma writes_are_bounded_batches_witness :
  Forall (write_ok cap5_config)
    (trace
       (after_loop 9
          (iterate cap5_config
             [mkClock 1 1; mkClock 1 1; mkClock 1 1; mkClock 1 1; mkClock 1 1;
              mkClock 1 1; mkClock 1 1]
             (env_steps
                [Edge 0 0 99; Edge 0 60000 100; Edge 0 120000 110;
                 Edge 0 180000 120; Edge 0 240000 130; Edge 0 300000 140;
                 Edge 0 360000 150; Edge 0 420000 160]
                (initial_world 0))))).
Proof.
  apply (writes_are_bounded_batches cap5_config).
  - simpl. lia.
  - apply reachable_iterate; [|reflexivity].
    apply reachable_env_steps. apply reach_init.
Defined.

(** ** Window starts *)

Lemma StronglySorted_snoc {A : Type} (R : A -> A -> Prop) (l : list A) (x : A) :
  StronglySorted R l -> Forall (fun a => R a x) l ->
  StronglySorted R (l ++ [x]).
Proof.
  induction 1 as [|a l Hs IH Ha]; intros Hall; simpl.
  - repeat constructor.
  - apply Forall_cons_iff in Hall. destruct Hall as [Hax Hl].
    constructor; [now apply IH|].
    apply Forall_app. split; [assumption|now constructor].
Qed.

Lemma spaced_epochs_distinct (gap : Z) (rows : list Row) :
  0 <= gap -> StronglySorted (spaced gap) rows -> NoDup (map row_epoch rows).
Proof.
  intros Hg. induction 1 as [|a l Hs IH Ha]; simpl; constructor; [|assumption].
  intros Hin. apply in_map_iff in Hin. destruct Hin as (b & Heq & Hb).
  rewrite Forall_forall in Ha. specialize (Ha b Hb). unfold spaced in Ha. lia.
Qed.

Lemma engine_step_spaced (cfg : Config) (v : Engine) (p : Pulse) :
  0 <= MIN_TIME cfg ->
  engine_spaced cfg v -> engine_spaced cfg (engine_step cfg v p).
Proof.
  intros Hmin (Hs & Hall & Hnone). destruct p as [epoch delta_us].
  unfold engine_step.
  destruct (delta_us <? GLITCH_THRESHOLD_US cfg);
    [split; [|split]; assumption|].
  destruct (e_old_epoch v) as [o|] eqn:Ho.
  - destruct (Z.leb_spec epoch (e_AggStart v + MIN_TIME cfg)) as [Hle|Hgt];
      unfold engine_spaced; simpl.
    + repeat split; try assumption; discriminate.
    + split; [|split; [|discriminate]].
      * apply StronglySorted_snoc; [assumption|].
        eapply Forall_impl; [|exact Hall]. intros r Hr. exact Hr.
      * apply Forall_app. split.
        -- eapply Forall_impl; [|exact Hall].
           intros r Hr. unfold row_epoch in *. simpl in *. lia.
        -- constructor; [|constructor]. unfold row_epoch. simpl. lia.
  - destruct (Hnone eq_refl) as [_ Hem]. unfold engine_spaced. simpl.
    rewrite Hem. repeat split; try constructor; discriminate.
Qed.

Lemma reachable_engine_spaced (cfg : Config) (w : World) :
  0 <= MIN_TIME cfg -> reachable cfg w -> engine_spaced cfg (engine_of w).
Proof.
  intros Hmin Hr. induction Hr as [now|e w Hr IH|c w Hr IH Hrun].
  - unfold engine_spaced. simpl. repeat split; constructor.
  - destruct (env_step_locals e w) as [He _]. now rewrite He.
  - destruct (loop_body_engine_cases cfg c w) as [He|[p He]]; rewrite He.
    + assumption.
    + now apply engine_step_spaced.
Qed.

(** X7. With a minimum window that is not negative, each emitted row starts
    more than [MIN_TIME] seconds after the row before it, the row of the
    last window at shutdown included.  The emitted epochs are therefore
    pairwise different, whatever timestamps the pulses carry. *)
Theorem window_starts_spaced (cfg : Config) (w : World) (now : Q) :
  0 <= MIN_TIME cfg ->
  reachable cfg w ->
  StronglySorted (spaced (MIN_TIME cfg)) (emitted (trace (after_loop now w))) /\
  NoDup (map row_epoch (emitted (trace (after_loop now w)))).
Proof.
  intros Hmin Hr.
  destruct (reachable_engine_spaced cfg w Hmin Hr) as (Hs & Hall & Hnone).
  simpl in Hs, Hall, Hnone.
  assert (H : StronglySorted (spaced (MIN_TIME cfg))
                (emitted (trace (after_loop now w)))).
  { rewrite after_loop_emitted. destruct (0 <? pulse_count w).
    - apply StronglySorted_snoc; [assumption|].
      eapply Forall_impl; [|exact Hall]. intros r Hr'. exact Hr'.
    - now rewrite app_nil_r. }
  split; [assumption|]. now apply (spaced_epochs_distinct (MIN_TIME cfg)).
Qed.

Lemma window_starts_spaced_witness :
  NoDup
    (map row_epoch
       (emitted
          (trace
             (after_loop 9
                (iterate source_config
                   [mkClock 1 1; mkClock 1 1; mkClock 1 1; mkClock 1 1]
                   (env_steps
                      [Edge 0 0 99; Edge 0 60000 100; Edge 0 150000 107;
                       Edge 0 250000 90; Edge 0 350000 120]
                      (initial_world 0))))))).
Proof.
  apply (window_starts_spaced source_config).
  - simpl. lia.
  - apply reachable_iterate; [|reflexivity].
    apply reachable_env_steps. apply reach_init.
Defined.

(** ** Conservation of pulses *)

Lemma sum_counts_app (a b : list Row) :
  sum_counts (a ++ b) = sum_counts a + sum_counts b.
Proof.
  induction a as [|r a IH]; simpl; [reflexivity|].
  unfold sum_counts in *. simpl. rewrite IH. lia.
Qed.

Lemma engine_step_counts (cfg : Config) (v : Engine) (p : Pulse) :
  (e_old_epoch v = None -> e_pulse_count v = 0) ->
  sum_counts (e_emitted (engine_step cfg v p)) +
    e_pulse_count (engine_step cfg v p) =
  sum_counts (e_emitted v) + e_pulse_count v +
    (if qualifies cfg p then 1 else 0) /\
  (e_old_epoch (engine_step cfg v p) = None ->
   e_pulse_count (engine_step cfg v p) = 0).
Proof.
  intros Hnone. destruct p as [epoch delta_us].
  unfold engine_step, qualifies. simpl.
  destruct (delta_us <? GLITCH_THRESHOLD_US cfg); simpl.
  { split; [lia|assumption]. }
  destruct (e_old_epoch v) as [o|].
  - destruct (epoch <=? e_AggStart v + MIN_TIME cfg); simpl.
    + split; [lia|discriminate].
    + rewrite sum_counts_app. unfold sum_counts at 2. simpl.
      unfold row_count. simpl. split; [lia|discriminate].
  - simpl. rewrite (Hnone eq_refl). split; [lia|discriminate].
Qed.

Lemma fold_engine_step_counts (cfg : Config) (ps : list Pulse) :
  forall v,
    (e_old_epoch v = None -> e_pulse_count v = 0) ->
    sum_counts (e_emitted (fold_left (engine_step cfg) ps v)) +
      e_pulse_count (fold_left (engine_step cfg) ps v) =
    sum_counts (e_emitted v) + e_pulse_count v +
      Z.of_nat (length (filter (qualifies cfg) ps)).
Proof.
  induction ps as [|p ps IH]; intros v Hnone; simpl; [lia|].
  destruct (engine_step_counts cfg v p Hnone) as [Hstep Hnone'].
  rewrite (IH (engine_step cfg v p) Hnone'), Hstep.
  destruct (qualifies cfg p); simpl length; lia.
Qed.

(** X8. No qualifying pulse is lost or counted twice: after the loop has
    processed a prefix of the queue and then ended, the pulse counts of all
    emitted rows, the row of the last window included, add up to what they
    were plus the open count plus the number of pulses of that prefix that
    passed the glitch filter. *)
Theorem pulse_counts_conserved
    (cfg : Config) (w : World) (front back : list Pulse)
    (cs : list Clock) (now : Q) :
  reachable cfg w ->
  running w = true ->
  pulse_list w = front ++ back ->
  length cs = length front ->
  sum_counts (emitted (trace (after_loop now (iterate cfg cs w)))) =
    sum_counts (emitted (trace w)) + pulse_count w +
      Z.of_nat (length (filter (qualifies cfg) front)).
Proof.
  intros Hr Hrun0 Hq Hlen.
  assert (Hnone : old_epoch w = None -> pulse_count w = 0).
  { clear Hq Hrun0. induction Hr as [t|e w Hr IH|c w Hr IH Hrun].
    - reflexivity.
    - destruct (env_step_locals e w) as [He _].
      rewrite (f_equal e_old_epoch He : old_epoch _ = old_epoch w).
      rewrite (f_equal e_pulse_count He : pulse_count _ = pulse_count w).
      assumption.
    - destruct (loop_body_engine_cases cfg c w) as [He|[p He]].
      + rewrite (f_equal e_old_epoch He : old_epoch _ = old_epoch w).
        rewrite (f_equal e_pulse_count He : pulse_count _ = pulse_count w).
        assumption.
      + rewrite (f_equal e_old_epoch He
                 : old_epoch _ = e_old_epoch (engine_step cfg (engine_of w) p)).
        rewrite (f_equal e_pulse_count He
                 : pulse_count _
                   = e_pulse_count (engine_step cfg (engine_of w) p)).
        apply (engine_step_counts cfg (engine_of w) p IH). }
  destruct (iterate_engine cfg cs w front back Hq Hlen) as [He _].
  pose proof (fold_engine_step_counts cfg front (engine_of w) Hnone) as Hsum.
  rewrite <- He in Hsum. simpl in Hsum.
  assert (Hpc : 0 <= pulse_count (iterate cfg cs w)).
  { apply (queue_and_window_bounds cfg). now apply reachable_iterate. }
  rewrite after_loop_emitted.
  destruct (Z.ltb_spec 0 (pulse_count (iterate cfg cs w))).
  - rewrite sum_counts_app.
    change (sum_counts [(AggStart (iterate cfg cs w),
                         to_millis (dt_agg (iterate cfg cs w)),
                         pulse_count (iterate cfg cs w))])
      with (pulse_count (iterate cfg cs w) + 0).
    lia.
  - rewrite app_nil_r. lia.
Qed.

Lemma pulse_counts_conserved_witness :
  sum_counts
    (emitted
       (trace
          (after_loop 9
             (iterate source_config
                [mkClock 1 1; mkClock 1 1; mkClock 1 1; mkClock 1 1]
                (env_steps
                   [Edge 0 0 99; Edge 0 60000 100; Edge 0 60010 100;
                    Edge 0 150000 101; Edge 0 250000 120]
                   (initial_world 0)))))) = 3.
Proof.
  etransitivity.
  - apply (pulse_counts_conserved source_config
             (env_steps
                [Edge 0 0 99; Edge 0 60000 100; Edge 0 60010 100;
                 Edge 0 150000 101; Edge 0 250000 120]
                (initial_world 0))
             [(100, 60000); (100, 10); (101, 89990); (120, 100000)] []).
    + apply reachable_env_steps. apply reach_init.
    + reflexivity.
    + reflexivity.
    + reflexivity.
  - reflexivity.
Defined.

(** ** Leaving the loop *)

Lemma env_steps_running (es : list EnvEvent) :
  forall w,
    running (env_steps es w) = running w && negb (existsb is_stop es).
Proof.
  induction es as [|e es IH]; intros w; simpl.
  - now rewrite andb_true_r.
  - change (env_steps (e :: es) w) with (env_steps es (env_step e w)).
    rewrite IH. destruct e as [level tick epoch|]; simpl.
    + unfold edge_callback. destruct (negb (level =? 0)); [reflexivity|].
      now destruct (previous_tick w).
    + now rewrite andb_false_r.
Qed.

(** X9. The loop ends at the first test of [running] before which a stop
    has been delivered, and only then: as long as no stop arrives it keeps
    turning, and what is scheduled after the stopping turn has no effect.
    Pulses arriving in the stopping turn, before or after the signal, are
    enqueued but not processed. *)
Theorem loop_ends_at_first_stop
    (cfg : Config) (pre post : list Slot) (s : Slot) (w : World) :
  running w = true ->
  forallb (fun s => negb (existsb is_stop (arrivals s))) pre = true ->
  aggregator_loop cfg pre w = None /\
  (existsb is_stop (arrivals s) = true ->
   aggregator_loop cfg (pre ++ s :: post) w =
     Some (after_loop (t_flush (clock s))
             (env_steps (arrivals s) (run_slots cfg pre w)))).
Proof.
  revert w. induction pre as [|s0 pre IH]; intros w Hrun Hno.
  - split; [reflexivity|]. intros Hs. simpl.
    rewrite env_steps_running, Hrun, Hs. reflexivity.
  - simpl in Hno. apply andb_true_iff in Hno. destruct Hno as [H0 Hno].
    assert (Hrun0 : running (env_steps (arrivals s0) w) = true).
    { rewrite env_steps_running, Hrun, H0. reflexivity. }
    assert (Hrun1 : running (run_slot cfg w s0) = true).
    { unfold run_slot. now rewrite loop_body_running. }
    destruct (IH (run_slot cfg w s0) Hrun1 Hno) as [Hnone Hsome].
    simpl. rewrite Hrun0. split; [exact Hnone|exact Hsome].
Qed.

Lemma loop_ends_at_first_stop_witness :
  aggregator_loop source_config
    [mkSlot [Edge 0 0 99; Edge 0 60000 100] (mkClock 1 1);
     mkSlot [Edge 0 150000 101; Stop; Edge 0 250000 102] (mkClock 2 2);
     mkSlot [Edge 0 350000 103] (mkClock 3 3)]
    (initial_world 0) =
  Some (after_loop 2
          (env_steps [Edge 0 150000 101; Stop; Edge 0 250000 102]
             (run_slots source_config
                [mkSlot [Edge 0 0 99; Edge 0 60000 100] (mkClock 1 1)]
                (initial_world 0)))).
Proof.
  apply (loop_ends_at_first_stop source_config
           [mkSlot [Edge 0 0 99; Edge 0 60000 100] (mkClock 1 1)]
           [mkSlot [Edge 0 350000 103] (mkClock 3 3)]
           (mkSlot [Edge 0 150000 101; Stop; Edge 0 250000 102] (mkClock 2 2))
           (initial_world 0)).
  - reflexivity.
  - reflexivity.
  - reflexivity.
Defined.

(** ** The table *)

Lemma select_app (e : Z) (a b : Table) :
  select e (a ++ b) =
    match select e a with Some r => Some r | None => select e b end.
Proof.
  unfold select. induction a as [|r a IH]; simpl; [reflexivity|].
  destruct (row_epoch r =? e); [reflexivity|assumption].
Qed.

Lemma select_filter_other (e k : Z) (t : Table) :
  select e (filter (fun r' => negb (row_epoch r' =? k)) t) =
    if e =? k then None else select e t.
Proof.
  unfold select. induction t as [|r t IH]; simpl.
  - now destruct (e =? k).
  - destruct (Z.eqb_spec (row_epoch r) k) as [Hk|Hk]; simpl.
    + rewrite IH. destruct (Z.eqb_spec e k) as [He|He]; [reflexivity|].
      destruct (Z.eqb_spec (row_epoch r) e); [congruence|reflexivity].
    + destruct (Z.eqb_spec (row_epoch r) e) as [He|He].
      * destruct (Z.eqb_spec e k); [congruence|reflexivity].
      * exact IH.
Qed.

(** What the table model gives, as used below: after [insert_or_replace]
    the key holds the row just written, exactly one row has that key, and
    every other key holds what it held. *)
Lemma insert_or_replace_is_upsert (t : Table) (r : Row) :
  select (row_epoch r) (insert_or_replace t r) = Some r /\
  length (filter (fun r' => row_epoch r' =? row_epoch r)
            (insert_or_replace t r)) = 1%nat /\
  (forall e, e <> row_epoch r ->
             select e (insert_or_replace t r) = select e t) /\
  (forall r2, row_epoch r2 = row_epoch r ->
              select (row_epoch r) (executemany [r; r2] t) = Some r2).
Proof.
  assert (Hsel : forall t r,
             select (row_epoch r) (insert_or_replace t r) = Some r).
  { intros t0 r0. unfold insert_or_replace.
    rewrite select_app, select_filter_other, Z.eqb_refl.
    unfold select. simpl. now rewrite Z.eqb_refl. }
  split; [apply Hsel|]. split; [|split].
  - unfold insert_or_replace. rewrite filter_app, length_app. simpl.
    rewrite Z.eqb_refl. simpl.
    assert (Hnil : filter (fun r' => row_epoch r' =? row_epoch r)
                     (filter (fun r' => negb (row_epoch r' =? row_epoch r)) t)
                   = []).
    { induction t as [|a t IH]; simpl; [reflexivity|].
      destruct (row_epoch a =? row_epoch r) eqn:Ha; simpl; [assumption|].
      now rewrite Ha. }
    now rewrite Hnil.
  - intros e He. unfold insert_or_replace.
    rewrite select_app, select_filter_other.
    destruct (Z.eqb_spec e (row_epoch r)) as [Heq|_]; [contradiction|].
    destruct (select e t); [reflexivity|].
    unfold select. simpl.
    destruct (Z.eqb_spec (row_epoch r) e); [congruence|reflexivity].
  - intros r2 Hk. unfold executemany. simpl. rewrite <- Hk. apply Hsel.
Qed.

Lemma table_after_written (tr : list Event) :
  forall t, table_after tr t = executemany (concat (written tr)) t.
Proof.
  induction tr as [|[e d c|rows i o] tr IH]; intros t; simpl.
  - reflexivity.
  - apply IH.
  - rewrite IH. unfold executemany. now rewrite fold_left_app.
Qed.

Lemma executemany_select_other (e : Z) (rows : list Row) :
  forall t,
    ~ In e (map row_epoch rows) ->
    select e (executemany rows t) = select e t.
Proof.
  induction rows as [|a rows IH]; intros t Hnot; [reflexivity|].
  change (executemany (a :: rows) t)
    with (executemany rows (insert_or_replace t a)).
  simpl in Hnot. rewrite IH by tauto.
  apply (insert_or_replace_is_upsert t a). intros He. apply Hnot. now left.
Qed.

Lemma executemany_select_in (rows : list Row) :
  forall t r,
    NoDup (map row_epoch rows) -> In r rows ->
    select (row_epoch r) (executemany rows t) = Some r.
Proof.
  induction rows as [|a rows IH]; intros t r Hnd Hin; [contradiction|].
  change (executemany (a :: rows) t)
    with (executemany rows (insert_or_replace t a)).
  simpl in Hnd. apply NoDup_cons_iff in Hnd. destruct Hnd as [Hnot Hnd].
  destruct Hin as [->|Hin].
  - rewrite executemany_select_other by assumption.
    apply (insert_or_replace_is_upsert t r).
  - now apply IH.
Qed.

(** X11. Nothing emitted is missing from the table at the end: with a
    minimum window that is not negative, once the loop has ended and the
    final flush is done, every row that was handed to [emit_output] is the
    row stored under its epoch, whatever the table held at start. *)
Theorem final_table_holds_emitted_rows
    (cfg : Config) (w : World) (now : Q) (t0 : Table) (r : Row) :
  0 <= MIN_TIME cfg ->
  reachable cfg w ->
  In r (emitted (trace (after_loop now w))) ->
  select (row_epoch r) (table_after (trace (after_loop now w)) t0) = Some r.
Proof.
  intros Hmin Hr Hin.
  destruct (rows_written_or_buffered cfg w now Hr) as (_ & Hall & _).
  destruct (window_starts_spaced cfg w now Hmin Hr) as [_ Hnd].
  rewrite table_after_written, Hall.
  now apply executemany_select_in.
Qed.

Lemma final_table_holds_emitted_rows_witness :
  select 107
    (table_after
       (trace
          (after_loop 9
             (iterate source_config [mkClock 1 1; mkClock 70 71; mkClock 72 72]
                (env_steps
                   [Edge 0 0 99; Edge 0 60000 100; Edge 0 150000 107;
                    Edge 0 250000 120]
                   (initial_world 0)))))
       [(107, 1, 1); (50, 2, 2)]) = Some (107, 90, 1).
Proof.
  apply (final_table_holds_emitted_rows source_config
           (iterate source_config [mkClock 1 1; mkClock 70 71; mkClock 72 72]
              (env_steps
                 [Edge 0 0 99; Edge 0 60000 100; Edge 0 150000 107;
                  Edge 0 250000 120]
                 (initial_world 0)))
           9 [(107, 1, 1); (50, 2, 2)] (107, 90, 1)).
  - simpl. lia.
  - apply reachable_iterate; [|reflexivity].
    apply reachable_env_steps. apply reach_init.
  - vm_compute. right. left. reflexivity.
Defined.

(** ** Producer and consumer *)

(** X12. While the queue is not empty the callback and the loop body do not
    interfere: an edge delivered just before an iteration leaves the same
    state as the same edge delivered just after it. *)
Theorem callback_commutes_with_iteration
    (cfg : Config) (c : Clock) (level tick epoch : Z) (w : World) :
  pulse_list w <> [] ->
  loop_body cfg c (edge_callback level tick epoch w) =
  edge_callback level tick epoch (loop_body cfg c w).
Proof.
  intros Hne.
  destruct w as [pt pl run ob lft oe ags dt pc bi bo tr].
  simpl in Hne. destruct pl as [|[e d] rest]; [contradiction|].
  unfold edge_callback, loop_body, flush_if_due, window_step, flush_buffer,
    time_due, size_due, emit_output, seed_first. simpl.
  destruct (negb (level =? 0)); simpl; [reflexivity|].
  destruct pt as [prev|]; simpl;
    (destruct (d <? GLITCH_THRESHOLD_US cfg); simpl; [reflexivity|]);
    (destruct oe as [o|]; simpl; [|reflexivity]);
    (destruct (e <=? ags + MIN_TIME cfg); simpl);
    repeat match goal with
           | |- context [if ?b then _ else _] => destruct b; simpl
           | |- context [match ?l with [] => _ | _ :: _ => _ end] =>
               destruct l; simpl
           end;
    reflexivity.
Qed.

Lemma callback_commutes_with_iteration_witness :
  loop_body source_config (mkClock 1 1)
    (edge_callback 0 150000 107
       (env_steps [Edge 0 0 99; Edge 0 60000 100] (initial_world 0))) =
  edge_callback 0 150000 107
    (loop_body source_config (mkClock 1 1)
       (env_steps [Edge 0 0 99; Edge 0 60000 100] (initial_world 0))).
Proof.
  apply (callback_commutes_with_iteration source_config).
  discriminate.
Defined.

(** ** The input counter *)

Lemma inputs_reported_app (a b : list Event) :
  inputs_reported (a ++ b) = inputs_reported a + inputs_reported b.
Proof.
  induction a as [|[e d c|rows i o] a IH]; simpl; [reflexivity|assumption|].
  rewrite IH. lia.
Qed.

Lemma flush_buffer_inputs (now : Q) (w : World) :
  inputs_reported (trace (flush_buffer now w)) +
    block_input_pulses (flush_buffer now w) =
  inputs_reported (trace w) + block_input_pulses w.
Proof.
  unfold flush_buffer. destruct (out_buffer w); [reflexivity|].
  simpl. rewrite inputs_reported_app. simpl. lia.
Qed.

Lemma loop_body_inputs (cfg : Config) (c : Clock) (w : World)
      (p : Pulse) (rest : list Pulse) :
  pulse_list w = p :: rest ->
  inputs_reported (trace (loop_body cfg c w)) +
    block_input_pulses (loop_body cfg c w) =
  inputs_reported (trace w) + block_input_pulses w + 1.
Proof.
  intros Hq. unfold loop_body. rewrite Hq. destruct p as [epoch delta_us].
  simpl. destruct (delta_us <? GLITCH_THRESHOLD_US cfg); [simpl; lia|].
  destruct (old_epoch w); [|simpl; lia].
  assert (Hws : forall w0,
             inputs_reported (trace (window_step cfg epoch delta_us w0)) =
               inputs_reported (trace w0) /\
             block_input_pulses (window_step cfg epoch delta_us w0) =
               block_input_pulses w0).
  { intros w0. unfold window_step.
    destruct (epoch <=? AggStart w0 + MIN_TIME cfg); simpl; [now split|].
    rewrite inputs_reported_app. simpl. split; [lia|reflexivity]. }
  unfold flush_if_due.
  match goal with
  | |- context [if ?b then _ else _] => destruct b
  end.
  - rewrite flush_buffer_inputs. simpl.
    destruct (Hws (set_block_input_pulses (block_input_pulses w + 1)
                     (set_pulse_list rest w))) as [Ht Hb].
    rewrite Ht, Hb. simpl. lia.
  - simpl.
    destruct (Hws (set_block_input_pulses (block_input_pulses w + 1)
                     (set_pulse_list rest w))) as [Ht Hb].
    rewrite Ht, Hb. simpl. lia.
Qed.

(** X13. Every pulse popped is counted once, glitches included: the
    [inputs=] figures reported with the writes so far plus the counter not
    yet reported grow by exactly the number of pulses processed. *)
Theorem inputs_are_accounted
    (cfg : Config) (cs : list Clock) (w : World) (front back : list Pulse) :
  pulse_list w = front ++ back ->
  length cs = length front ->
  inputs_reported (trace (iterate cfg cs w)) +
    block_input_pulses (iterate cfg cs w) =
  inputs_reported (trace w) + block_input_pulses w +
    Z.of_nat (length front).
Proof.
  revert w front. induction cs as [|c cs IH]; intros w front Hq Hlen.
  - destruct front; [simpl; lia|discriminate].
  - destruct front as [|p front]; [discriminate|].
    change (iterate cfg (c :: cs) w) with (iterate cfg cs (loop_body cfg c w)).
    destruct (loop_body_engine cfg c w p (front ++ back) Hq) as [_ Hp].
    rewrite (IH (loop_body cfg c w) front Hp) by (simpl in Hlen; lia).
    rewrite (loop_body_inputs cfg c w p (front ++ back) Hq).
    simpl length. lia.
Qed.

Lemma inputs_are_accounted_witness :
  inputs_reported
    (trace
       (iterate source_config
          [mkClock 1 1; mkClock 1 1; mkClock 70 71; mkClock 72 72]
          (env_steps
             [Edge 0 0 99; Edge 0 60000 100; Edge 0 60010 100;
              Edge 0 150000 107; Edge 0 250000 120]
             (initial_world 0)))) +
  block_input_pulses
    (iterate source_config
       [mkClock 1 1; mkClock 1 1; mkClock 70 71; mkClock 72 72]
       (env_steps
          [Edge 0 0 99; Edge 0 60000 100; Edge 0 60010 100;
           Edge 0 150000 107; Edge 0 250000 120]
          (initial_world 0))) = 4.
Proof.
  etransitivity.
  - apply (inputs_are_accounted source_config
             [mkClock 1 1; mkClock 1 1; mkClock 70 71; mkClock 72 72]
             (env_steps
                [Edge 0 0 99; Edge 0 60000 100; Edge 0 60010 100;
                 Edge 0 150000 107; Edge 0 250000 120]
                (initial_world 0))
             [(100, 60000); (100, 10); (107, 89990); (120, 100000)] []).
    + reflexivity.
    + reflexivity.
  - reflexivity.
Defined.
